(** * SetId column storage and the process-stats data source

    A shallow embedding of
    - [src/trace_processor/db/storage/set_id_storage.h] ([SetIdStorage]),
    - [src/traced/probes/ps/process_stats_data_source.cc]: the constructor
      of [ProcessStatsDataSource], [ReadProcStatusEntry], [ToU32],
      [WriteMemCounters], [Tick], and the packet and fd writers
      ([StartNewPacketIfNeeded], [GetOrCreatePsTree], [GetOrCreateStats],
      [GetOrCreateStatsProcess], [FinalizeCurPacket], [WriteSingleFd],
      [WriteFds], the fd loop of [WriteAllProcesses], [OnFds] and
      [ClearIncrementalState]).

    The header of [SetIdStorage] only declares [Search], [IndexSearch],
    [StableSort], [Sort] and [BinarySearchIntrinsic]; their bodies live in
    [set_id_storage.cc], which is not part of the sources at hand.  Those
    operations are modelled from the spec and marked as such below.

    Values of the column are [uint32_t]; a row position is an index into the
    externally owned vector.  Both are modelled as [nat]: the invariant
    [value[i] <= i] keeps every value below the row count. *)

From Stdlib Require Import List Arith Lia ZArith Bool Permutation Sorted.
From Stdlib Require Ascii String.
Import ListNotations.

Module SetIdStorage.

(** ** Data model *)

Definition SetId := nat.

(** [FilterOp] of [src/trace_processor/db/storage/types.h]. *)
Inductive FilterOp : Type :=
| Eq | Ne | Lt | Le | Gt | Ge | IsNull | IsNotNull.

(** [RowMap::Range]: the half-open range [start, end). *)
Record Range : Type := mkRange { start : nat; end_ : nat }.

(** [RangeOrBitVector]: either one contiguous range, or an explicit set of
    positions (the set bits of a [BitVector]), listed in ascending order. *)
Inductive RangeOrBitVector : Type :=
| RRange (r : Range)
| RBitVector (positions : list nat).

(** [values_->at(i)], read without bounds check. *)
Definition value (values : list SetId) (i : nat) : SetId := nth i values 0.

(** [size()]: [static_cast<uint32_t>(values_->size())]. *)
Definition size (values : list SetId) : Z :=
  Z.of_nat (length values) mod 2 ^ 32.

(** The SetId invariant: [value[i] <= i] and [value[i] <= value[i+1]],
    as an executable check over every index. *)
Definition validb (values : list SetId) : bool :=
  forallb
    (fun i =>
       (value values i <=? i) &&
       (if S i <? length values
        then value values i <=? value values (S i) else true))
    (seq 0 (length values)).

Definition valid (values : list SetId) : Prop := validb values = true.

(** Membership of a position in a search result. *)
Definition memb (r : RangeOrBitVector) (i : nat) : bool :=
  match r with
  | RRange rg => (start rg <=? i) && (i <? end_ rg)
  | RBitVector ps => existsb (Nat.eqb i) ps
  end.

(** ** Binary search

    [lower_bound f lo hi]: the first position of [lo, hi) at which [f] is
    false, for an [f] that is true on a prefix and false on the rest (the
    shape of [std::lower_bound] / [std::upper_bound] over a sorted span).
    The fuel [hi - lo] bounds the number of halvings. *)
Fixpoint lower_bound_fuel (fuel : nat) (f : nat -> bool) (lo hi : nat) : nat :=
  match fuel with
  | O => lo
  | S k =>
      if lo <? hi then
        let mid := lo + (hi - lo) / 2 in
        if f mid then lower_bound_fuel k f (S mid) hi
        else lower_bound_fuel k f lo mid
      else lo
  end.

Definition lower_bound (f : nat -> bool) (lo hi : nat) : nat :=
  lower_bound_fuel (hi - lo) f lo hi.

(** Modelled from the spec: [SetIdStorage::BinarySearchIntrinsic]
    (body in [set_id_storage.cc], not available).  Spec 4.2: two boundary
    binary searches within [b, e); the lower end of the search space is
    narrowed to the position [val] itself, since [value[i] <= i] rules out
    any position below [val]. *)
Definition BinarySearchIntrinsic (values : list SetId) (op : FilterOp)
    (val : nat) (search_range : Range) : Range :=
  let b := start search_range in
  let e := end_ search_range in
  let s := Nat.min (Nat.max b val) e in
  let lt_bound := lower_bound (fun i => value values i <? val) s e in
  let le_bound := lower_bound (fun i => value values i <=? val) s e in
  match op with
  | Eq => mkRange lt_bound le_bound
  | Lt => mkRange b lt_bound
  | Le => mkRange b le_bound
  | Gt => mkRange le_bound e
  | Ge => mkRange lt_bound e
  | _ => search_range
  end.

(** Modelled from the spec: [SetIdStorage::Search] (spec 4.2).  [Ne] is the
    complement of the [Eq] block within [b, e), returned as a position set;
    [IsNull] is always empty and [IsNotNull] always the full range (spec 7,
    "Unsupported predicate"). *)
Definition Search (values : list SetId) (op : FilterOp) (val : nat)
    (range : Range) : RangeOrBitVector :=
  match op with
  | IsNull => RRange (mkRange 0 0)
  | IsNotNull => RRange range
  | Ne =>
      let eq := BinarySearchIntrinsic values Eq val range in
      RBitVector (seq (start range) (start eq - start range) ++
                  seq (end_ eq) (end_ range - end_ eq))
  | _ => RRange (BinarySearchIntrinsic values op val range)
  end.

(** The predicate of a filter, evaluated on one value. *)
Definition eval_op (op : FilterOp) (val x : nat) : bool :=
  match op with
  | Eq => x =? val
  | Ne => negb (x =? val)
  | Lt => x <? val
  | Le => x <=? val
  | Gt => val <? x
  | Ge => val <=? x
  | IsNull => false
  | IsNotNull => true
  end.

(** Modelled from the spec: the unsorted path of [SetIdStorage::IndexSearch]
    (spec 4.3, [sorted = false]).  The predicate is evaluated independently at
    every supplied position; the result is the set of indices [j] into
    [indices] whose position matched (a [BitVector] over the supplied list). *)
Definition IndexSearchUnsorted (values : list SetId) (op : FilterOp)
    (val : nat) (indices : list nat) : list nat :=
  filter (fun j => eval_op op val (value values (nth j indices 0)))
         (seq 0 (length indices)).

(** [lower_bound] search over the logical projection [j |-> value[indices[j]]]
    of the supplied list, in index space. *)
Definition SortedIndexRange (values : list SetId) (op : FilterOp)
    (val : nat) (indices : list nat) : Range :=
  let key j := value values (nth j indices 0) in
  let n := length indices in
  let lt_bound := lower_bound (fun j => key j <? val) 0 n in
  let le_bound := lower_bound (fun j => key j <=? val) 0 n in
  match op with
  | Eq => mkRange lt_bound le_bound
  | Lt => mkRange 0 lt_bound
  | Le => mkRange 0 le_bound
  | Gt => mkRange le_bound n
  | Ge => mkRange lt_bound n
  | _ => mkRange 0 n
  end.

(** Modelled from the spec: [SetIdStorage::IndexSearch] (spec 4.3).
    [sorted = true] runs the boundary binary search over the projection
    defined by the list; [sorted = false] is the linear scan above. *)
Definition IndexSearch (values : list SetId) (op : FilterOp) (val : nat)
    (indices : list nat) (sorted : bool) : RangeOrBitVector :=
  if sorted then
    match op with
    | IsNull => RRange (mkRange 0 0)
    | Ne =>
        let eq := SortedIndexRange values Eq val indices in
        RBitVector (seq 0 (start eq) ++
                    seq (end_ eq) (length indices - end_ eq))
    | _ => RRange (SortedIndexRange values op val indices)
    end
  else RBitVector (IndexSearchUnsorted values op val indices).

(** The original row positions an [IndexSearch] result stands for: each
    reported index [j] is mapped back through [indices]. *)
Definition reported (indices : list nat) (r : RangeOrBitVector) : list nat :=
  match r with
  | RRange rg =>
      map (fun j => nth j indices 0) (seq (start rg) (end_ rg - start rg))
  | RBitVector js => map (fun j => nth j indices 0) js
  end.

(** ** Sorting a permutation buffer *)

(** Insertion of [x] in front of the first element whose key is not
    smaller: an element inserted later lands before its ties. *)
Fixpoint insert_stable (key : nat -> nat) (x : nat) (l : list nat)
    : list nat :=
  match l with
  | [] => [x]
  | y :: l' => if key x <=? key y then x :: l else y :: insert_stable key x l'
  end.

(** Insertion of [x] behind every element whose key is not greater. *)
Fixpoint insert_after (key : nat -> nat) (x : nat) (l : list nat)
    : list nat :=
  match l with
  | [] => [x]
  | y :: l' => if key x <? key y then x :: l else y :: insert_after key x l'
  end.

(** Modelled from the spec: [SetIdStorage::StableSort] (spec 4.4), i.e.
    [std::stable_sort] of [rows] by [value[row]]: an insertion sort that
    inserts each row, from the back, ahead of its ties. *)
Definition StableSort (values : list SetId) (rows : list nat) : list nat :=
  fold_right (insert_stable (value values)) [] rows.

(** Modelled from the spec: [SetIdStorage::Sort] (spec 4.4), an unstable
    sort of [rows] by [value[row]]; any order among ties is allowed, and
    this one reverses them. *)
Definition Sort (values : list SetId) (rows : list nat) : list nat :=
  fold_right (insert_after (value values)) [] rows.

End SetIdStorage.

(** * [ProcessStatsDataSource] constructor
    ([src/traced/probes/ps/process_stats_data_source.cc]) *)

Module ProcessStatsDataSource.

Local Open Scope Z_scope.

(** The fields of [ProcessStatsConfig] the constructor reads that matter
    for polling; both are [uint32] in the config proto. *)
Record ProcessStatsConfig : Type := mkConfig {
  proc_stats_poll_ms : Z;
  proc_stats_cache_ttl_ms : Z
}.

(** The fields of the data source the constructor writes for polling. *)
Record DataSource : Type := mkDataSource {
  poll_period_ms_ : Z;
  process_stats_cache_ttl_ticks_ : Z
}.

(** The polling part of the constructor body.  [ticks0] is the value
    [process_stats_cache_ttl_ticks_] has before the body runs (its member
    initialiser); it is left alone when polling is off.  All operands are
    [uint32_t], so [/] is unsigned (truncating) division. *)
Definition construct (cfg : ProcessStatsConfig) (ticks0 : Z) : DataSource :=
  let poll0 := proc_stats_poll_ms cfg in
  let poll := if (0 <? poll0) && (poll0 <? 100) then 100 else poll0 in
  let ticks :=
    if 0 <? poll then Z.max (proc_stats_cache_ttl_ms cfg / poll) 1
    else ticks0 in
  mkDataSource poll ticks.

Definition is_uint32 (x : Z) : Prop := 0 <= x < 2 ^ 32.

End ProcessStatsDataSource.

(** * Reading [/proc/<pid>/status]
    ([src/traced/probes/ps/process_stats_data_source.cc]) *)

Module ProcStatus.

Import Ascii.
Import (notations) String.
Local Open Scope char_scope.

(** A [std::string] / [std::vector<char>] as its characters. *)
Definition str := list ascii.

Definition lit (s : String.string) : str := String.list_ascii_of_string s.

Definition NUL : ascii := "000".
Definition TAB : ascii := "009".
Definition NL : ascii := "010".

Fixpoint str_eqb (a b : str) : bool :=
  match a, b with
  | [], [] => true
  | x :: a', y :: b' => Ascii.eqb x y && str_eqb a' b'
  | _, _ => false
  end.

(** [key] is a prefix of [buf]. *)
Fixpoint prefixb (key buf : str) : bool :=
  match key, buf with
  | [], _ => true
  | k :: key', c :: buf' => Ascii.eqb k c && prefixb key' buf'
  | _ :: _, [] => false
  end.

(** [buf.find(key)]: the first position where [key] occurs; [None] is
    [std::string::npos]. *)
Fixpoint find (buf key : str) : option nat :=
  if prefixb key buf then Some 0
  else match buf with
       | [] => None
       | _ :: buf' => option_map S (find buf' key)
       end.

Fixpoint find_first_not_of_from (set l : str) (i : nat) : option nat :=
  match l with
  | [] => None
  | c :: l' =>
      if existsb (Ascii.eqb c) set then find_first_not_of_from set l' (S i)
      else Some i
  end.

(** [buf.find_first_not_of(set, pos)]. *)
Definition find_first_not_of (buf set : str) (pos : nat) : option nat :=
  find_first_not_of_from set (skipn pos buf) pos.

Fixpoint find_char_from (ch : ascii) (l : str) (i : nat) : option nat :=
  match l with
  | [] => None
  | c :: l' => if Ascii.eqb c ch then Some i else find_char_from ch l' (S i)
  end.

(** [buf.find(ch, pos)]. *)
Definition find_char (buf : str) (ch : ascii) (pos : nat) : option nat :=
  find_char_from ch (skipn pos buf) pos.

(** [buf.substr(pos, n)] for [pos <= buf.size()]. *)
Definition substr (buf : str) (pos n : nat) : str := firstn n (skipn pos buf).

(** [ProcessStatsDataSource::ReadProcStatusEntry]. *)
Definition ReadProcStatusEntry (buf key : str) : str :=
  match find buf key with
  | None => []
  | Some begin0 =>
      match find_first_not_of buf [" "; TAB] (begin0 + length key) with
      | None => []
      | Some begin1 =>
          match find_char buf NL begin1 with
          | None => []
          | Some end1 =>
              if Nat.leb end1 begin1 then [] else substr buf begin1 (end1 - begin1)
          end
      end
  end.

(** [isspace] in the C locale. *)
Definition isspace (c : ascii) : bool :=
  existsb (Ascii.eqb c) [" "; TAB; NL; "011"; "012"; "013"].

Definition is_digit (c : ascii) : bool :=
  Nat.leb 48 (nat_of_ascii c) && Nat.leb (nat_of_ascii c) 57.

Fixpoint skip_space (l : str) : str :=
  match l with
  | c :: l' => if isspace c then skip_space l' else l
  | [] => []
  end.

(** Accumulates the decimal digits at the head of [l]. *)
Fixpoint digits_acc (acc : Z) (l : str) : Z :=
  match l with
  | c :: l' =>
      if is_digit c then digits_acc (10 * acc + Z.of_nat (nat_of_ascii c - 48)) l'
      else acc
  | [] => acc
  end.

Definition LONG_MIN : Z := - 2 ^ 63.
Definition LONG_MAX : Z := 2 ^ 63 - 1.

(** [strtol(str, nullptr, 10)] on a 64-bit [long]: leading white space, an
    optional sign, the longest run of digits (none gives 0), saturated to
    [[LONG_MIN, LONG_MAX]] on overflow. *)
Definition strtol (l : str) : Z :=
  let l1 := skip_space l in
  let '(neg, l2) :=
    match l1 with
    | c :: r =>
        if Ascii.eqb c "-" then (true, r)
        else if Ascii.eqb c "+" then (false, r)
        else (false, l1)
    | [] => (false, [])
    end in
  let n := digits_acc 0 l2 in
  Z.max LONG_MIN (Z.min LONG_MAX (if neg then - n else n)).

(** The number a non-empty run of decimal digits denotes. *)
Definition decimal_value (ds : str) : Z :=
  fold_left (fun acc c => (10 * acc + Z.of_nat (nat_of_ascii c - 48))%Z) ds 0%Z.

(** [ToU32]: [static_cast<uint32_t>(strtol(str, nullptr, 10))]. *)
Definition ToU32 (l : str) : Z := strtol l mod 2 ^ 32.

(** ** [WriteMemCounters] *)

Inductive ParseState : Type := kKey | kSeparator | kValue.

(** The counters of [CachedProcessStats] that [WriteMemCounters] reads. *)
Inductive MemCounter : Type :=
| VmSize | VmLck | VmHWM | VmRSS | RssAnon | RssFile | RssShmem | VmSwap.

(** The [strcmp] chain on the key, in the order of the source. *)
Definition counter_of_key (k : str) : option MemCounter :=
  if str_eqb k (lit "VmSize"%string) then Some VmSize
  else if str_eqb k (lit "VmLck"%string) then Some VmLck
  else if str_eqb k (lit "VmHWM"%string) then Some VmHWM
  else if str_eqb k (lit "VmRSS"%string) then Some VmRSS
  else if str_eqb k (lit "RssAnon"%string) then Some RssAnon
  else if str_eqb k (lit "RssFile"%string) then Some RssFile
  else if str_eqb k (lit "RssShmem"%string) then Some RssShmem
  else if str_eqb k (lit "VmSwap"%string) then Some VmSwap
  else None.

Definition MemCounter_eqb (a b : MemCounter) : bool :=
  match a, b with
  | VmSize, VmSize | VmLck, VmLck | VmHWM, VmHWM | VmRSS, VmRSS
  | RssAnon, RssAnon | RssFile, RssFile | RssShmem, RssShmem
  | VmSwap, VmSwap => true
  | _, _ => false
  end.

(** [vec.data()] read as a C string: up to the first NUL. *)
Fixpoint c_str (l : str) : str :=
  match l with
  | [] => []
  | c :: l' => if Ascii.eqb c NUL then [] else c :: c_str l'
  end.

Definition upd (cache : MemCounter -> Z) (m : MemCounter) (v : Z)
    : MemCounter -> Z :=
  fun m' => if MemCounter_eqb m m' then v else cache m'.

(** The locals of the loop, the cached counters of the pid, and the counter
    writes made through [GetOrCreateStatsProcess(pid)->set_..._kb]. *)
Record MemState : Type := mkMemState {
  st : ParseState;
  key : str;
  val : str;
  has_mem_counters : bool;
  cached : MemCounter -> Z;
  writes : list (MemCounter * Z)
}.

(** One iteration of [for (char c : proc_status)]. *)
Definition mem_step (s : MemState) (c : ascii) : MemState :=
  if Ascii.eqb c NL then
    let key' := key s ++ [NUL] in
    let val' := val s ++ [NUL] in
    match counter_of_key (c_str key') with
    | Some m =>
        let counter := ToU32 val' in
        let has' := has_mem_counters s || MemCounter_eqb m VmSize in
        if Z.eqb counter (cached s m) then
          mkMemState kKey [] val' has' (cached s) (writes s)
        else
          mkMemState kKey [] val' has' (upd (cached s) m counter)
                     (writes s ++ [(m, counter)])
    | None =>
        mkMemState kKey [] val' (has_mem_counters s) (cached s) (writes s)
    end
  else
    match st s with
    | kKey =>
        if Ascii.eqb c ":" then
          mkMemState kSeparator (key s) (val s) (has_mem_counters s)
                     (cached s) (writes s)
        else
          mkMemState kKey (key s ++ [c]) (val s) (has_mem_counters s)
                     (cached s) (writes s)
    | kSeparator =>
        if isspace c then s
        else
          mkMemState kValue (key s) [c] (has_mem_counters s)
                     (cached s) (writes s)
    | kValue =>
        mkMemState kValue (key s) (val s ++ [c]) (has_mem_counters s)
                   (cached s) (writes s)
    end.

(** [ProcessStatsDataSource::WriteMemCounters(pid, proc_status)], given the
    cached counters of [pid]: the state after the loop; its
    [has_mem_counters] is the returned value. *)
Definition WriteMemCounters (cache0 : MemCounter -> Z) (proc_status : str)
    : MemState :=
  fold_left mem_step proc_status (mkMemState kKey [] [] false cache0 []).

(** The key of one status line, as [strcmp] sees it. *)
Fixpoint until_colon (l : str) : str :=
  match l with
  | [] => []
  | c :: l' => if Ascii.eqb c ":" then [] else c :: until_colon l'
  end.

Definition line_key (line : str) : str := c_str (until_colon line).

(** Replaying counter writes on a cache. *)
Definition apply_writes (cache : MemCounter -> Z) (ws : list (MemCounter * Z))
    : MemCounter -> Z :=
  fold_left (fun c w => upd c (fst w) (snd w)) ws cache.

(** Every write changes the value it overwrites. *)
Fixpoint writes_change (cache : MemCounter -> Z) (ws : list (MemCounter * Z))
    : Prop :=
  match ws with
  | [] => True
  | (m, v) :: ws' => cache m <> v /\ writes_change (upd cache m v) ws'
  end.

(** A blank as [find_first_not_of(" \t")] skips it. *)
Definition is_blank (c : ascii) : Prop := c = " "%char \/ c = TAB.

End ProcStatus.

(** * Polling in [ProcessStatsDataSource::Tick] *)

Module PsTick.

Import ProcessStatsDataSource.
Local Open Scope Z_scope.

(** [delay_ms = period_ms - static_cast<uint32_t>(GetWallTimeMs().count()
    % period_ms)]: the [int64] wall time in ms is divided by the [uint32]
    period as a signed [int64] ([%] truncates, [Z.rem]), the remainder is
    cast to [uint32] and the subtraction is [uint32] arithmetic. *)
Definition tick_delay (period_ms now_ms : Z) : Z :=
  (period_ms - Z.rem now_ms period_ms mod 2 ^ 32) mod 2 ^ 32.

(** [if (++cache_ticks_ == process_stats_cache_ttl_ticks_) { cache_ticks_ = 0;
    process_stats_cache_.clear(); }]: the new counter and whether the cache
    is cleared. *)
Definition cache_tick (cache_ticks ttl : Z) : Z * bool :=
  let t := cache_ticks + 1 in
  if t =? ttl then (0, true) else (t, false).

(** [n] calls of [Tick]: the final counter and, per call, whether it cleared
    [process_stats_cache_]. *)
Fixpoint run_ticks (ttl cache_ticks : Z) (n : nat) : Z * list bool :=
  match n with
  | O => (cache_ticks, [])
  | S n' =>
      let (t, cleared) := cache_tick cache_ticks ttl in
      let (t', cs) := run_ticks ttl t n' in
      (t', cleared :: cs)
  end.

End PsTick.

(** * The trace packets of [ProcessStatsDataSource] *)

Module PsWriter.

Local Open Scope Z_scope.

(** The fields written through the [TraceWriter]: a new packet with its
    timestamp and [incremental_state_cleared] flag, the [process_tree] and
    [process_stats] submessages, a [ProcessStats.Process] with its pid, an
    [fds] entry with its fd and path, and the [collection_end_timestamp] of
    a tree or of a stats message. *)
Inductive Event : Type :=
| NewTracePacket (timestamp : Z) (incremental_state_cleared : bool)
| SetProcessTree
| SetProcessStats
| AddProcess (pid : Z)
| AddFd (fd : Z) (path : String.string)
| TreeEnd (now : Z)
| StatsEnd (now : Z).

(** The members these functions use.  A handle is modelled by whether it
    is set; [cur_ps_stats_process_] by the pid of the open
    [ProcessStats.Process].  [tids_to_pids_] and [process_stats_cache_]
    (only its [seen_fds]) are association lists; [out] is what was written. *)
Record Writer : Type := mkWriter {
  cur_packet_ : bool;
  cur_ps_tree_ : bool;
  cur_ps_stats_ : bool;
  cur_ps_stats_process_ : option Z;
  did_clear_incremental_state_ : bool;
  cur_procfs_scan_start_timestamp_ : Z;
  tids_to_pids_ : list (Z * Z);
  seen_fds_ : list (Z * list Z);
  out : list Event
}.

Definition emit (e : Event) (w : Writer) : Writer :=
  mkWriter (cur_packet_ w) (cur_ps_tree_ w) (cur_ps_stats_ w)
           (cur_ps_stats_process_ w) (did_clear_incremental_state_ w)
           (cur_procfs_scan_start_timestamp_ w) (tids_to_pids_ w)
           (seen_fds_ w) (out w ++ [e]).

Definition set_handles (packet tree stats : bool) (stats_process : option Z)
    (w : Writer) : Writer :=
  mkWriter packet tree stats stats_process (did_clear_incremental_state_ w)
           (cur_procfs_scan_start_timestamp_ w) (tids_to_pids_ w)
           (seen_fds_ w) (out w).

Definition set_scan_ts (ts : Z) (w : Writer) : Writer :=
  mkWriter (cur_packet_ w) (cur_ps_tree_ w) (cur_ps_stats_ w)
           (cur_ps_stats_process_ w) (did_clear_incremental_state_ w) ts
           (tids_to_pids_ w) (seen_fds_ w) (out w).

Definition set_did_clear (b : bool) (w : Writer) : Writer :=
  mkWriter (cur_packet_ w) (cur_ps_tree_ w) (cur_ps_stats_ w)
           (cur_ps_stats_process_ w) b (cur_procfs_scan_start_timestamp_ w)
           (tids_to_pids_ w) (seen_fds_ w) (out w).

Definition set_stats_process (sp : option Z) (w : Writer) : Writer :=
  set_handles (cur_packet_ w) (cur_ps_tree_ w) (cur_ps_stats_ w) sp w.

Fixpoint lookup (k : Z) (m : list (Z * Z)) : option Z :=
  match m with
  | [] => None
  | (k', v) :: m' => if k' =? k then Some v else lookup k m'
  end.

(** [process_stats_cache_[pid].seen_fds]; [operator[]] yields an empty set
    for a pid without an entry. *)
Fixpoint seen_of (pid : Z) (m : list (Z * list Z)) : list Z :=
  match m with
  | [] => []
  | (p, fds) :: m' => if p =? pid then fds else seen_of pid m'
  end.

Fixpoint insert_seen (pid fd : Z) (m : list (Z * list Z)) : list (Z * list Z) :=
  match m with
  | [] => [(pid, [fd])]
  | (p, fds) :: m' =>
      if p =? pid then (p, fd :: fds) :: m' else (p, fds) :: insert_seen pid fd m'
  end.

Definition add_seen_fd (pid fd : Z) (w : Writer) : Writer :=
  mkWriter (cur_packet_ w) (cur_ps_tree_ w) (cur_ps_stats_ w)
           (cur_ps_stats_process_ w) (did_clear_incremental_state_ w)
           (cur_procfs_scan_start_timestamp_ w) (tids_to_pids_ w)
           (insert_seen pid fd (seen_fds_ w)) (out w).

(** In each function [now] is what [base::GetBootTimeNs()] returns during the
    call. *)

(** [CacheProcFsScanStartTimestamp()]. *)
Definition CacheProcFsScanStartTimestamp (now : Z) (w : Writer) : Z * Writer :=
  if cur_procfs_scan_start_timestamp_ w =? 0 then (now, set_scan_ts now w)
  else (cur_procfs_scan_start_timestamp_ w, w).

(** [StartNewPacketIfNeeded()]. *)
Definition StartNewPacketIfNeeded (now : Z) (w : Writer) : Writer :=
  if cur_packet_ w then w
  else
    let w1 := set_handles true (cur_ps_tree_ w) (cur_ps_stats_ w)
                          (cur_ps_stats_process_ w) w in
    let (ts, w2) := CacheProcFsScanStartTimestamp now w1 in
    if did_clear_incremental_state_ w2 then
      set_did_clear false (emit (NewTracePacket ts true) w2)
    else emit (NewTracePacket ts false) w2.

(** [GetOrCreatePsTree()]. *)
Definition GetOrCreatePsTree (now : Z) (w : Writer) : Writer :=
  let w1 := StartNewPacketIfNeeded now w in
  let w2 := if cur_ps_tree_ w1 then w1
            else set_handles (cur_packet_ w1) true (cur_ps_stats_ w1)
                             (cur_ps_stats_process_ w1) (emit SetProcessTree w1) in
  set_handles (cur_packet_ w2) (cur_ps_tree_ w2) false None w2.

(** [GetOrCreateStats()]. *)
Definition GetOrCreateStats (now : Z) (w : Writer) : Writer :=
  let w1 := StartNewPacketIfNeeded now w in
  let w2 := if cur_ps_stats_ w1 then w1
            else set_handles (cur_packet_ w1) (cur_ps_tree_ w1) true
                             (cur_ps_stats_process_ w1) (emit SetProcessStats w1) in
  set_handles (cur_packet_ w2) false (cur_ps_stats_ w2) None w2.

(** [GetOrCreateStatsProcess(pid)]: the pid of the entry the returned handle
    writes to, and the new state. *)
Definition GetOrCreateStatsProcess (now pid : Z) (w : Writer) : Z * Writer :=
  match cur_ps_stats_process_ w with
  | Some p => (p, w)
  | None =>
      let w1 := GetOrCreateStats now w in
      (pid, set_stats_process (Some pid) (emit (AddProcess pid) w1))
  end.

(** [FinalizeCurPacket()]. *)
Definition FinalizeCurPacket (now : Z) (w : Writer) : Writer :=
  let w1 := if cur_ps_tree_ w then emit (TreeEnd now) w else w in
  let w2 := if cur_ps_stats_ w1 then emit (StatsEnd now) w1 else w1 in
  set_scan_ts 0 (set_handles false false false None w2).

(** [WriteSingleFd(tid, fd)]; [readlink pid fd] is the target of
    [/proc/<pid>/fd/<fd>], or [None] when [readlink] fails. *)
Definition WriteSingleFd (readlink : Z -> Z -> option String.string)
    (now tid fd : Z) (w : Writer) : Writer :=
  let pid := match lookup tid (tids_to_pids_ w) with
             | Some p => p
             | None => tid
             end in
  if existsb (Z.eqb fd) (seen_of pid (seen_fds_ w)) then w
  else
    match readlink pid fd with
    | Some path =>
        let (_, w1) := GetOrCreateStatsProcess now pid w in
        add_seen_fd pid fd (emit (AddFd fd path) w1)
    | None => w
    end.

(** An entry of [/proc/<pid>/fd]: whether [d_type == DT_LNK], and
    [CStringToUInt64(d_name)]. *)
Record Dirent : Type := mkDirent {
  is_lnk : bool;
  fd_of_name : option Z
}.

(** [WriteFds(pid)]; [fd_dir] is the listing of [/proc/<pid>/fd], [None] when
    [opendir] fails. *)
Definition WriteFds (readlink : Z -> Z -> option String.string)
    (resolve_process_fds : bool) (fd_dir : option (list Dirent))
    (now pid : Z) (w : Writer) : Writer :=
  if negb resolve_process_fds then w
  else
    match fd_dir with
    | None => w
    | Some ents =>
        fold_left (fun w e =>
                     if is_lnk e then
                       match fd_of_name e with
                       | Some fd => WriteSingleFd readlink now pid fd w
                       | None => w
                       end
                     else w) ents w
    end.

(** The end of [WriteAllProcesses()]: [for (pid : seen_pids_) WriteFds(pid);
    FinalizeCurPacket();] *)
Definition WriteAllFds (readlink : Z -> Z -> option String.string)
    (resolve_process_fds : bool) (fd_dirs : Z -> option (list Dirent))
    (now : Z) (seen_pids : list Z) (w : Writer) : Writer :=
  FinalizeCurPacket now
    (fold_left (fun w pid =>
                  WriteFds readlink resolve_process_fds (fd_dirs pid) now pid w)
               seen_pids w).

(** [OnFds(fds)]. *)
Definition OnFds (readlink : Z -> Z -> option String.string)
    (resolve_process_fds : bool) (now : Z) (fds : list (Z * list Z))
    (w : Writer) : Writer :=
  if negb resolve_process_fds then w
  else
    FinalizeCurPacket now
      (fold_left (fun w pid_fds =>
                    fold_left (fun w fd => WriteSingleFd readlink now (fst pid_fds) fd w)
                              (snd pid_fds)
                              (set_stats_process None w))
                 fds w).

(** [ClearIncrementalState()], on the members above ([seen_pids_],
    [skip_stats_for_pids_] and [cache_ticks_] are not part of [Writer]). *)
Definition ClearIncrementalState (w : Writer) : Writer :=
  mkWriter (cur_packet_ w) (cur_ps_tree_ w) (cur_ps_stats_ w)
           (cur_ps_stats_process_ w) true
           (cur_procfs_scan_start_timestamp_ w) [] [] (out w).

(** A call of one of the member functions above. *)
Inductive Op : Type :=
| OpStartNewPacketIfNeeded (now : Z)
| OpGetOrCreatePsTree (now : Z)
| OpGetOrCreateStats (now : Z)
| OpGetOrCreateStatsProcess (now pid : Z)
| OpFinalizeCurPacket (now : Z)
| OpWriteSingleFd (readlink : Z -> Z -> option String.string) (now tid fd : Z)
| OpOnFds (readlink : Z -> Z -> option String.string) (resolve : bool) (now : Z)
          (fds : list (Z * list Z))
| OpClearIncrementalState.

Definition run_op (o : Op) (w : Writer) : Writer :=
  match o with
  | OpStartNewPacketIfNeeded now => StartNewPacketIfNeeded now w
  | OpGetOrCreatePsTree now => GetOrCreatePsTree now w
  | OpGetOrCreateStats now => GetOrCreateStats now w
  | OpGetOrCreateStatsProcess now pid => snd (GetOrCreateStatsProcess now pid w)
  | OpFinalizeCurPacket now => FinalizeCurPacket now w
  | OpWriteSingleFd rl now tid fd => WriteSingleFd rl now tid fd w
  | OpOnFds rl resolve now fds => OnFds rl resolve now fds w
  | OpClearIncrementalState => ClearIncrementalState w
  end.

Definition run_ops (ops : list Op) (w : Writer) : Writer :=
  fold_left (fun w o => run_op o w) ops w.

Definition is_clear (o : Op) : bool :=
  match o with OpClearIncrementalState => true | _ => false end.

(** The [incremental_state_cleared] flags of the packets in [es]. *)
Fixpoint packet_flags (es : list Event) : list bool :=
  match es with
  | [] => []
  | NewTracePacket _ b :: es' => b :: packet_flags es'
  | _ :: es' => packet_flags es'
  end.

Definition is_add_process (e : Event) : bool :=
  match e with AddProcess _ => true | _ => false end.

(** The handle invariant [FinalizeCurPacket] checks ([!cur_ps_tree_ ||
    cur_packet_], [!cur_ps_stats_ || cur_packet_]), with the two facts the
    [GetOrCreate] functions keep: a tree and a stats message are never open
    together, and an open [ProcessStats.Process] belongs to an open stats
    message. *)
Definition handles_ok (w : Writer) : Prop :=
  (cur_ps_tree_ w = true -> cur_packet_ w = true) /\
  (cur_ps_stats_ w = true -> cur_packet_ w = true) /\
  (cur_ps_tree_ w = false \/ cur_ps_stats_ w = false) /\
  (cur_ps_stats_process_ w <> None -> cur_ps_stats_ w = true).

Definition initial_writer : Writer :=
  mkWriter false false false None false 0 [] [] [].

(** Preservation of [handles_ok] from one state to a later one. *)
Definition keeps_handles (w w' : Writer) : Prop := handles_ok w -> handles_ok w'.

(** The flags [fl] of the packets started while [did_clear_incremental_state_]
    goes from [d] to [d']. *)
Definition flags_ok (d : bool) (fl : list bool) (d' : bool) : Prop :=
  (fl = [] /\ d' = d) \/ (exists n, fl = d :: repeat false n /\ d' = false).

Definition flag_step (w w' : Writer) : Prop :=
  exists new, out w' = out w ++ new /\
  flags_ok (did_clear_incremental_state_ w) (packet_flags new)
           (did_clear_incremental_state_ w').

(** Whether a [ProcessStats.Process] can still be added without one being
    open. *)
Definition open_slot (w : Writer) : nat :=
  match cur_ps_stats_process_ w with None => 1 | Some _ => 0 end.

(** The [ProcessStats.Process] entries added from [w] to [w'], plus whether
    an entry can still be added, never exceed what could be added at [w]. *)
Definition entry_step (w w' : Writer) : Prop :=
  exists new, out w' = out w ++ new /\
  (length (filter is_add_process new) + open_slot w' <= open_slot w)%nat.

End PsWriter.

(** * Facts about the SetId storage *)

Module SetIdStorageFacts.

Import SetIdStorage.

(** ** The invariant *)

Lemma valid_at (values : list SetId) (i : nat) :
  valid values -> i < length values ->
  value values i <= i /\
  (S i < length values -> value values i <= value values (S i)).
Proof.
  unfold valid, validb. intros Hv Hi.
  rewrite forallb_forall in Hv.
  specialize (Hv i (proj2 (in_seq _ _ _) (conj (Nat.le_0_l i) Hi))).
  apply andb_prop in Hv as [H1 H2].
  apply Nat.leb_le in H1. split; [exact H1 |].
  intros HS. apply Nat.ltb_lt in HS as HS'. rewrite HS' in H2.
  apply Nat.leb_le. exact H2.
Qed.

Lemma valid_le_index (values : list SetId) (i : nat) :
  valid values -> i < length values -> value values i <= i.
Proof. intros Hv Hi. exact (proj1 (valid_at values i Hv Hi)). Qed.

Lemma valid_mono (values : list SetId) (i j : nat) :
  valid values -> i <= j -> j < length values ->
  value values i <= value values j.
Proof.
  intros Hv Hij. induction Hij as [| j Hij IH]; intros Hj.
  - lia.
  - assert (Hs : value values j <= value values (S j))
      by (apply (valid_at values j Hv); lia).
    specialize (IH ltac:(lia)). lia.
Qed.

(** ** Binary search *)

Lemma lower_bound_fuel_spec (fuel : nat) (f : nat -> bool) (lo hi : nat) :
  lo <= hi -> hi - lo <= fuel ->
  (forall i j, lo <= i -> i <= j -> j < hi -> f j = true -> f i = true) ->
  let r := lower_bound_fuel fuel f lo hi in
  lo <= r <= hi /\
  (forall i, lo <= i -> i < r -> f i = true) /\
  (forall i, r <= i -> i < hi -> f i = false).
Proof.
  revert lo hi. induction fuel as [| k IH]; intros lo hi Hle Hfuel Hmono r.
  - subst r. simpl. split; [lia |]. split; intros; lia.
  - subst r. cbn [lower_bound_fuel]. cbv zeta. destruct (lo <? hi) eqn:Hlt.
    + apply Nat.ltb_lt in Hlt.
      pose proof (Nat.div_mod (hi - lo) 2 ltac:(lia)) as Hdm.
      pose proof (Nat.mod_upper_bound (hi - lo) 2 ltac:(lia)) as Hmu.
      set (d := (hi - lo) / 2) in *.
      assert (Hmid : lo <= lo + d < hi) by lia.
      destruct (f (lo + d)) eqn:Hf.
      * destruct (IH (S (lo + d)) hi ltac:(lia) ltac:(lia)) as
          [Hr [Hpre Hsuf]].
        { intros i j Hi Hij Hj. apply Hmono; lia. }
        split; [lia |]. split; [| exact Hsuf].
        intros i Hi Hir.
        destruct (Nat.lt_ge_cases i (S (lo + d))) as [Hc | Hc].
        -- apply (Hmono i (lo + d)); lia || exact Hf.
        -- apply Hpre; lia.
      * destruct (IH lo (lo + d) ltac:(lia) ltac:(lia)) as
          [Hr [Hpre Hsuf]].
        { intros i j Hi Hij Hj. apply Hmono; lia. }
        split; [lia |]. split; [exact Hpre |].
        intros i Hi Hih.
        destruct (Nat.lt_ge_cases i (lo + d)) as [Hc | Hc].
        -- apply Hsuf; lia.
        -- destruct (f i) eqn:Hfi; [| reflexivity].
           rewrite (Hmono (lo + d) i ltac:(lia) Hc Hih Hfi) in Hf.
           discriminate.
    + apply Nat.ltb_ge in Hlt. split; [lia |]. split; intros; lia.
Qed.

(** [lower_bound] as a characterisation: the boundary splits [lo, hi) into
    the positions where [f] holds and those where it does not. *)
Lemma lower_bound_spec (f : nat -> bool) (lo hi : nat) :
  lo <= hi ->
  (forall i j, lo <= i -> i <= j -> j < hi -> f j = true -> f i = true) ->
  lo <= lower_bound f lo hi <= hi /\
  (forall i, lo <= i -> i < hi -> (i < lower_bound f lo hi <-> f i = true)).
Proof.
  intros Hle Hmono.
  destruct (lower_bound_fuel_spec (hi - lo) f lo hi Hle (le_n _) Hmono)
    as [Hr [Hpre Hsuf]].
  unfold lower_bound. split; [exact Hr |].
  intros i Hi Hih. split.
  - intros Hir. apply Hpre; lia.
  - intros Hfi. destruct (Nat.lt_ge_cases i (lower_bound_fuel (hi - lo) f lo hi))
      as [Hc | Hc]; [exact Hc |].
    rewrite (Hsuf i Hc Hih) in Hfi. discriminate.
Qed.

(** Two boundaries with the same characterisation coincide. *)
Lemma boundary_unique (f : nat -> bool) (b e r1 r2 : nat) :
  b <= r1 <= e -> b <= r2 <= e ->
  (forall i, b <= i -> i < e -> (i < r1 <-> f i = true)) ->
  (forall i, b <= i -> i < e -> (i < r2 <-> f i = true)) ->
  r1 = r2.
Proof.
  intros H1 H2 C1 C2.
  destruct (Nat.lt_trichotomy r1 r2) as [Hc | [Hc | Hc]]; [| exact Hc |].
  - exfalso. assert (Hf : f r1 = true) by (apply C2; lia).
    apply C1 in Hf; lia.
  - exfalso. assert (Hf : f r2 = true) by (apply C1; lia).
    apply C2 in Hf; lia.
Qed.

(** The narrowed search of [BinarySearchIntrinsic]: starting the search at
    [min (max b v) e] instead of [b] loses nothing, as long as the predicate
    holds on every position below [v]. *)
Lemma narrowed_bound_spec (f : nat -> bool) (v b e : nat) :
  b <= e ->
  (forall i j, b <= i -> i <= j -> j < e -> f j = true -> f i = true) ->
  (forall i, b <= i -> i < e -> i < v -> f i = true) ->
  let r := lower_bound f (Nat.min (Nat.max b v) e) e in
  b <= r <= e /\ (forall i, b <= i -> i < e -> (i < r <-> f i = true)).
Proof.
  intros Hbe Hmono Hbelow r.
  destruct (lower_bound_spec f (Nat.min (Nat.max b v) e) e ltac:(lia))
    as [Hr Hchar].
  { intros i j Hi Hij Hj. apply Hmono; lia. }
  subst r. split; [lia |].
  intros i Hi Hie.
  destruct (Nat.lt_ge_cases i (Nat.min (Nat.max b v) e)) as [Hc | Hc].
  - split; intros _; [apply Hbelow; lia | lia].
  - apply Hchar; lia.
Qed.

Section Bounds.

Variable values : list SetId.
Hypothesis Hvalid : valid values.
Variables (v b e : nat).
Hypothesis Hbe : b <= e.
Hypothesis HeN : e <= length values.

Lemma bound_lt :
  let r := lower_bound (fun i => value values i <? v) (Nat.min (Nat.max b v) e) e in
  b <= r <= e /\
  (forall i, b <= i -> i < e -> (i < r <-> value values i < v)).
Proof.
  destruct (narrowed_bound_spec (fun i => value values i <? v) v b e Hbe)
    as [Hr Hchar].
  - intros i j Hi Hij Hj. rewrite !Nat.ltb_lt.
    pose proof (valid_mono values i j Hvalid Hij ltac:(lia)). lia.
  - intros i Hi Hie Hiv. apply Nat.ltb_lt.
    pose proof (valid_le_index values i Hvalid ltac:(lia)). lia.
  - split; [exact Hr |]. intros i Hi Hie.
    rewrite (Hchar i Hi Hie). apply Nat.ltb_lt.
Qed.

Lemma bound_le :
  let r := lower_bound (fun i => value values i <=? v) (Nat.min (Nat.max b v) e) e in
  b <= r <= e /\
  (forall i, b <= i -> i < e -> (i < r <-> value values i <= v)).
Proof.
  destruct (narrowed_bound_spec (fun i => value values i <=? v) v b e Hbe)
    as [Hr Hchar].
  - intros i j Hi Hij Hj. rewrite !Nat.leb_le.
    pose proof (valid_mono values i j Hvalid Hij ltac:(lia)). lia.
  - intros i Hi Hie Hiv. apply Nat.leb_le.
    pose proof (valid_le_index values i Hvalid ltac:(lia)). lia.
  - split; [exact Hr |]. intros i Hi Hie.
    rewrite (Hchar i Hi Hie). apply Nat.leb_le.
Qed.

End Bounds.

Lemma existsb_seq (i a n : nat) :
  existsb (Nat.eqb i) (seq a n) = true <-> a <= i < a + n.
Proof.
  rewrite existsb_exists. split.
  - intros [x [Hx Heq]]. apply Nat.eqb_eq in Heq. subst x.
    apply in_seq in Hx. lia.
  - intros H. exists i. split; [apply in_seq; lia | apply Nat.eqb_refl].
Qed.

Lemma eval_op_true (op : FilterOp) (t x : nat) :
  eval_op op t x = true <->
  match op with
  | Eq => x = t | Ne => x <> t | Lt => x < t | Le => x <= t
  | Gt => t < x | Ge => t <= x | IsNull => False | IsNotNull => True
  end.
Proof.
  destruct op; simpl;
    rewrite ?negb_true_iff, ?Nat.eqb_eq, ?Nat.eqb_neq, ?Nat.ltb_lt, ?Nat.leb_le;
    split; easy.
Qed.

(** Correctness of [Search] for every operator but [IsNull]: a position is
    in the result iff it lies in [b, e) and its value satisfies the
    predicate. *)
Lemma search_correct (values : list SetId) (op : FilterOp) (t b e i : nat) :
  valid values -> b <= e <= length values -> op <> IsNull ->
  memb (Search values op t (mkRange b e)) i = true <->
  (b <= i < e /\ eval_op op t (value values i) = true).
Proof.
  intros Hv [Hbe HeN] HnN.
  destruct (bound_lt values Hv t b e Hbe HeN) as [Hlt1 Hlt2].
  destruct (bound_le values Hv t b e Hbe HeN) as [Hle1 Hle2].
  cbv zeta in *.
  set (lt := lower_bound (fun i => value values i <? t) (Nat.min (Nat.max b t) e) e)
    in *.
  set (le := lower_bound (fun i => value values i <=? t) (Nat.min (Nat.max b t) e) e)
    in *.
  rewrite eval_op_true.
  destruct op; unfold Search, BinarySearchIntrinsic; fold lt le; cbn [memb start end_];
    rewrite ?andb_true_iff, ?Nat.leb_le, ?Nat.ltb_lt.
  - (* Eq *)
    split.
    + intros [H1 H2].
      assert (Hi : b <= i < e) by lia. split; [exact Hi |].
      pose proof (proj1 (Hle2 i ltac:(lia) ltac:(lia)) H2).
      assert (~ value values i < t) by (intros Hc; apply Hlt2 in Hc; lia).
      lia.
    + intros [Hi Heq].
      assert (i < le) by (apply Hle2; lia).
      assert (~ i < lt) by (intros Hc; apply Hlt2 in Hc; lia).
      lia.
  - (* Ne *)
    rewrite existsb_app, orb_true_iff, !existsb_seq. split.
    + intros [H | H].
      * assert (Hi : b <= i < e) by lia. split; [exact Hi |].
        assert (value values i < t) by (apply Hlt2; lia). lia.
      * assert (Hi : b <= i < e) by lia. split; [exact Hi |].
        assert (~ value values i <= t) by (intros Hc; apply Hle2 in Hc; lia).
        lia.
    + intros [Hi Hne].
      destruct (Nat.lt_ge_cases (value values i) t) as [Hc | Hc].
      * left. apply Hlt2 in Hc; lia.
      * right. assert (~ i < le) by (intros Hc'; apply Hle2 in Hc'; lia).
        lia.
  - (* Lt *)
    split.
    + intros [H1 H2]. split; [lia |]. apply Hlt2; lia.
    + intros [Hi Hc]. apply Hlt2 in Hc; lia.
  - (* Le *)
    split.
    + intros [H1 H2]. split; [lia |]. apply Hle2; lia.
    + intros [Hi Hc]. apply Hle2 in Hc; lia.
  - (* Gt *)
    split.
    + intros [H1 H2]. split; [lia |].
      assert (~ value values i <= t) by (intros Hc; apply Hle2 in Hc; lia).
      lia.
    + intros [Hi Hc].
      assert (~ i < le) by (intros Hc'; apply Hle2 in Hc'; lia). lia.
  - (* Ge *)
    split.
    + intros [H1 H2]. split; [lia |].
      assert (~ value values i < t) by (intros Hc; apply Hlt2 in Hc; lia).
      lia.
    + intros [Hi Hc].
      assert (~ i < lt) by (intros Hc'; apply Hlt2 in Hc'; lia). lia.
  - (* IsNull *) contradiction.
  - (* IsNotNull *) tauto.
Qed.

(** ** Claims about [Search] *)

(** C1: on a valid column, [Search(Eq, t, [0, N))] is one contiguous range
    whose positions are exactly those holding [t] (empty when [t] does not
    occur). *)
Theorem search_eq_full_range (values : list SetId) (t : nat) :
  valid values ->
  exists lo hi,
    Search values Eq t (mkRange 0 (length values)) = RRange (mkRange lo hi) /\
    (forall i,
       memb (Search values Eq t (mkRange 0 (length values))) i = true <->
       i < length values /\ value values i = t).
Proof.
  intros Hv. eexists _, _. split; [reflexivity |].
  intros i. rewrite (search_correct values Eq t 0 (length values) i Hv
                       ltac:(lia) ltac:(discriminate)).
  rewrite eval_op_true. lia.
Qed.

(** C2: on a valid column no position below [v] holds [v], so both boundary
    searches for [v] over [b, e) give the same boundary whether they start
    at [b] or at the narrowed position [min (max b v) e]. *)
Theorem narrowing_sound (values : list SetId) (v : nat) :
  valid values ->
  (forall i, i < length values -> value values i = v -> v <= i) /\
  (forall b e, b <= e <= length values ->
     lower_bound (fun i => value values i <? v) (Nat.min (Nat.max b v) e) e =
     lower_bound (fun i => value values i <? v) b e /\
     lower_bound (fun i => value values i <=? v) (Nat.min (Nat.max b v) e) e =
     lower_bound (fun i => value values i <=? v) b e).
Proof.
  intros Hv. split.
  - intros i Hi Heq. rewrite <- Heq. apply valid_le_index; assumption.
  - intros b e [Hbe HeN].
    destruct (bound_lt values Hv v b e Hbe HeN) as [Hlt1 Hlt2].
    destruct (bound_le values Hv v b e Hbe HeN) as [Hle1 Hle2].
    destruct (lower_bound_spec (fun i => value values i <? v) b e Hbe)
      as [Hl1 Hl2].
    { intros i j Hi Hij Hj. rewrite !Nat.ltb_lt.
      pose proof (valid_mono values i j Hv Hij ltac:(lia)). lia. }
    destruct (lower_bound_spec (fun i => value values i <=? v) b e Hbe)
      as [Hm1 Hm2].
    { intros i j Hi Hij Hj. rewrite !Nat.leb_le.
      pose proof (valid_mono values i j Hv Hij ltac:(lia)). lia. }
    split.
    + apply (boundary_unique (fun i => value values i <? v) b e); try lia.
      * intros i Hi Hie. rewrite Nat.ltb_lt. apply Hlt2; lia.
      * exact Hl2.
    + apply (boundary_unique (fun i => value values i <=? v) b e); try lia.
      * intros i Hi Hie. rewrite Nat.leb_le. apply Hle2; lia.
      * exact Hm2.
Qed.

(** C3: [Lt] and [Ge] split any range [b, e) of a valid column into two
    disjoint parts covering it, and each of [Lt], [Le], [Gt], [Ge] returns
    one contiguous range that is a prefix or a suffix of [b, e). *)
Theorem search_lt_ge_partition (values : list SetId) (t b e : nat) :
  valid values -> b <= e <= length values ->
  (forall i,
     memb (Search values Lt t (mkRange b e)) i = true \/
     memb (Search values Ge t (mkRange b e)) i = true <-> b <= i < e) /\
  (forall i,
     ~ (memb (Search values Lt t (mkRange b e)) i = true /\
        memb (Search values Ge t (mkRange b e)) i = true)) /\
  (exists x, b <= x <= e /\
     Search values Lt t (mkRange b e) = RRange (mkRange b x)) /\
  (exists x, b <= x <= e /\
     Search values Le t (mkRange b e) = RRange (mkRange b x)) /\
  (exists x, b <= x <= e /\
     Search values Gt t (mkRange b e) = RRange (mkRange x e)) /\
  (exists x, b <= x <= e /\
     Search values Ge t (mkRange b e) = RRange (mkRange x e)).
Proof.
  intros Hv Hr.
  pose proof (fun i => search_correct values Lt t b e i Hv Hr
                         ltac:(discriminate)) as HLt.
  pose proof (fun i => search_correct values Ge t b e i Hv Hr
                         ltac:(discriminate)) as HGe.
  destruct (bound_lt values Hv t b e (proj1 Hr) (proj2 Hr)) as [Hlt1 _].
  destruct (bound_le values Hv t b e (proj1 Hr) (proj2 Hr)) as [Hle1 _].
  cbv zeta in *.
  split; [| split; [| split; [| split; [| split]]]].
  - intros i. rewrite HLt, HGe, !eval_op_true. lia.
  - intros i. rewrite HLt, HGe, !eval_op_true. lia.
  - eexists. split; [exact Hlt1 | reflexivity].
  - eexists. split; [exact Hle1 | reflexivity].
  - eexists. split; [exact Hle1 | reflexivity].
  - eexists. split; [exact Hlt1 | reflexivity].
Qed.

(** C7: [Ne] over [b, e) of a valid column is an explicit position set, the
    complement within [b, e) of the [Eq] block, i.e. the positions of
    [b, e) whose value differs from [t]. *)
Theorem search_ne_complement (values : list SetId) (t b e : nat) :
  valid values -> b <= e <= length values ->
  (exists ps, Search values Ne t (mkRange b e) = RBitVector ps) /\
  (forall i,
     (memb (Search values Ne t (mkRange b e)) i = true <->
      b <= i < e /\ memb (Search values Eq t (mkRange b e)) i = false) /\
     (memb (Search values Ne t (mkRange b e)) i = true <->
      b <= i < e /\ value values i <> t)).
Proof.
  intros Hv Hr. split; [eexists; reflexivity |].
  intros i.
  rewrite (search_correct values Ne t b e i Hv Hr ltac:(discriminate)).
  rewrite eval_op_true.
  pose proof (search_correct values Eq t b e i Hv Hr ltac:(discriminate))
    as HEq.
  rewrite eval_op_true in HEq.
  split; [| reflexivity].
  destruct (memb (Search values Eq t (mkRange b e)) i); split.
  - intros [Hi Hne]. exfalso. apply Hne, (proj1 HEq eq_refl).
  - intros [_ Hc]. discriminate.
  - intros [Hi Hne]. split; [exact Hi | reflexivity].
  - intros [Hi _]. split; [exact Hi |]. intros Heq.
    pose proof (proj2 HEq (conj Hi Heq)). discriminate.
Qed.

(** C8: [IsNull] always yields the empty range and [IsNotNull] the whole
    queried range; [Search] is total, so neither is reported as a failure. *)
Theorem search_null_checks (values : list SetId) (t : nat) (r : Range) :
  Search values IsNull t r = RRange (mkRange 0 0) /\
  (forall i, memb (Search values IsNull t r) i = false) /\
  Search values IsNotNull t r = RRange r /\
  (forall i,
     memb (Search values IsNotNull t r) i = (start r <=? i) && (i <? end_ r)).
Proof.
  split; [reflexivity |]. split.
  - intros i. simpl. destruct i; reflexivity.
  - split; reflexivity.
Qed.

(** ** Subset search *)

(** C6: the unsorted [IndexSearch] returns an explicit position set, and the
    row positions it reports are exactly the supplied ones whose value
    satisfies the predicate, whatever the order of the list. *)
Theorem index_search_unsorted_correct (values : list SetId) (op : FilterOp)
    (t : nat) (S : list nat) :
  (exists js, IndexSearch values op t S false = RBitVector js) /\
  (forall i,
     In i (reported S (IndexSearch values op t S false)) <->
     In i S /\ eval_op op t (value values i) = true) /\
  (forall S', Permutation S S' ->
     forall i,
       In i (reported S (IndexSearch values op t S false)) <->
       In i (reported S' (IndexSearch values op t S' false))).
Proof.
  assert (Hchar : forall L i,
    In i (reported L (IndexSearch values op t L false)) <->
    In i L /\ eval_op op t (value values i) = true).
  { intros L i. unfold IndexSearch, IndexSearchUnsorted, reported.
    rewrite in_map_iff. split.
    - intros [j [Hj Hin]]. apply filter_In in Hin as [Hjs Hp].
      apply in_seq in Hjs. subst i. split; [apply nth_In; lia | exact Hp].
    - intros [Hin Hp]. apply (In_nth L i 0) in Hin as [j [Hj Hnth]].
      exists j. split; [exact Hnth |]. apply filter_In. split.
      + apply in_seq; lia.
      + rewrite Hnth. exact Hp. }
  split; [eexists; reflexivity |]. split; [apply Hchar |].
  intros S' HP i. rewrite !Hchar.
  split; intros [Hin Hp]; split; try exact Hp.
  - exact (Permutation_in i HP Hin).
  - exact (Permutation_in i (Permutation_sym HP) Hin).
Qed.

(** ** Sorting *)

Section Sorting.

Variable key : nat -> nat.

Definition by_key (a b : nat) : Prop := key a <= key b.

Lemma insert_stable_perm (x : nat) (l : list nat) :
  Permutation (x :: l) (insert_stable key x l).
Proof.
  induction l as [| y l IH]; simpl; [reflexivity |].
  destruct (key x <=? key y); [reflexivity |].
  etransitivity; [apply perm_swap |]. constructor. exact IH.
Qed.

Lemma insert_after_perm (x : nat) (l : list nat) :
  Permutation (x :: l) (insert_after key x l).
Proof.
  induction l as [| y l IH]; simpl; [reflexivity |].
  destruct (key x <? key y); [reflexivity |].
  etransitivity; [apply perm_swap |]. constructor. exact IH.
Qed.

Lemma insert_stable_hd (x y : nat) (l : list nat) :
  HdRel by_key y l -> key y <= key x -> HdRel by_key y (insert_stable key x l).
Proof.
  intros Hhd Hyx. destruct l as [| z l]; simpl.
  - constructor. exact Hyx.
  - destruct (key x <=? key z); constructor; [exact Hyx |].
    inversion Hhd; assumption.
Qed.

Lemma insert_after_hd (x y : nat) (l : list nat) :
  HdRel by_key y l -> key y <= key x -> HdRel by_key y (insert_after key x l).
Proof.
  intros Hhd Hyx. destruct l as [| z l]; simpl.
  - constructor. exact Hyx.
  - destruct (key x <? key z); constructor; [exact Hyx |].
    inversion Hhd; assumption.
Qed.

Lemma insert_stable_sorted (x : nat) (l : list nat) :
  Sorted by_key l -> Sorted by_key (insert_stable key x l).
Proof.
  induction l as [| y l IH]; intros Hs; simpl.
  - repeat constructor.
  - inversion Hs as [| ? ? Hl Hhd]; subst.
    destruct (key x <=? key y) eqn:Hxy.
    + apply Nat.leb_le in Hxy. constructor; [exact Hs | constructor; exact Hxy].
    + apply Nat.leb_gt in Hxy. constructor; [apply IH, Hl |].
      apply insert_stable_hd; [exact Hhd | lia].
Qed.

Lemma insert_after_sorted (x : nat) (l : list nat) :
  Sorted by_key l -> Sorted by_key (insert_after key x l).
Proof.
  induction l as [| y l IH]; intros Hs; simpl.
  - repeat constructor.
  - inversion Hs as [| ? ? Hl Hhd]; subst.
    destruct (key x <? key y) eqn:Hxy.
    + apply Nat.ltb_lt in Hxy. constructor; [exact Hs |].
      constructor. unfold by_key. lia.
    + apply Nat.ltb_ge in Hxy. constructor; [apply IH, Hl |].
      apply insert_after_hd; [exact Hhd | lia].
Qed.

Lemma sorted_nth (l : list nat) :
  Sorted by_key l ->
  forall k, S k < length l -> key (nth k l 0) <= key (nth (S k) l 0).
Proof.
  induction 1 as [| a l Hl IH Hhd]; intros k Hk; simpl in Hk; [lia |].
  destruct k as [| k].
  - destruct l as [| b l]; simpl in Hk; [lia |].
    inversion Hhd; assumption.
  - apply (IH k). lia.
Qed.

(** Inserting [x] ahead of its ties leaves, for every key, the sub-list of
    elements with that key as it was, with [x] in front when it has it. *)
Lemma filter_insert_stable (x c : nat) (l : list nat) :
  filter (fun p => key p =? c) (insert_stable key x l) =
  if key x =? c then x :: filter (fun p => key p =? c) l
  else filter (fun p => key p =? c) l.
Proof.
  induction l as [| y l IH]; simpl.
  - destruct (key x =? c); reflexivity.
  - destruct (key x <=? key y) eqn:Hxy; simpl.
    + reflexivity.
    + rewrite IH. apply Nat.leb_gt in Hxy.
      destruct (Nat.eqb_spec (key x) c), (Nat.eqb_spec (key y) c);
        simpl; try reflexivity; lia.
Qed.

End Sorting.

(** The sub-list of a list selected by [g], cut at an element [x] of it,
    comes from a cut of the whole list at [x]. *)
Lemma filter_cut (g : nat -> bool) (x : nat) (l A B : list nat) :
  filter g l = A ++ x :: B ->
  exists o1 o2, l = o1 ++ x :: o2 /\ filter g o1 = A /\ filter g o2 = B.
Proof.
  revert A. induction l as [| y l IH]; intros A H; simpl in H.
  - destruct A; discriminate.
  - destruct (g y) eqn:Hg.
    + destruct A as [| a A]; simpl in H; injection H as H1 H2.
      * subst y. exists [], l. split; [reflexivity |]. split; [reflexivity | exact H2].
      * subst a. destruct (IH A H2) as [o1 [o2 [Hl [H1 H3]]]].
        exists (y :: o1), o2. subst l. split; [reflexivity |].
        split; [simpl; rewrite Hg, H1; reflexivity | exact H3].
    + destruct (IH A H) as [o1 [o2 [Hl [H1 H3]]]].
      exists (y :: o1), o2. subst l. split; [reflexivity |].
      split; [simpl; rewrite Hg; exact H1 | exact H3].
Qed.

Lemma stable_sort_filter (values : list SetId) (rows : list nat) (c : nat) :
  filter (fun p => value values p =? c) (StableSort values rows) =
  filter (fun p => value values p =? c) rows.
Proof.
  induction rows as [| a rows IH]; [reflexivity |].
  unfold StableSort in *. simpl. rewrite filter_insert_stable, IH.
  reflexivity.
Qed.

Lemma stable_sort_perm (values : list SetId) (rows : list nat) :
  Permutation rows (StableSort values rows).
Proof.
  induction rows as [| a rows IH]; [reflexivity |].
  unfold StableSort in *. simpl.
  etransitivity; [| apply insert_stable_perm]. constructor. exact IH.
Qed.

(** C4: [StableSort] keeps the relative order of rows with equal values:
    the row at [k1] still comes before the row at [k2]. *)
Theorem stable_sort_stable (values : list SetId) (rows : list nat)
    (k1 k2 : nat) :
  k1 < k2 -> k2 < length rows ->
  value values (nth k1 rows 0) = value values (nth k2 rows 0) ->
  exists j1 j2,
    j1 < j2 /\ j2 < length (StableSort values rows) /\
    nth j1 (StableSort values rows) 0 = nth k1 rows 0 /\
    nth j2 (StableSort values rows) 0 = nth k2 rows 0.
Proof.
  intros H12 H2 Heq.
  destruct (nth_split rows 0 H2) as [m1 [m2 [Hrows Hm1]]].
  remember (nth k1 rows 0) as a eqn:Ea.
  remember (nth k2 rows 0) as b eqn:Eb.
  set (g := fun p => value values p =? value values a).
  assert (Ha : nth k1 m1 0 = a).
  { rewrite Ea, Hrows. rewrite app_nth1; [reflexivity | lia]. }
  destruct (nth_split m1 0 (ltac:(lia) : k1 < length m1)) as
    [l1 [l2 [Hm1' Hl1]]].
  rewrite Ha in Hm1'.
  assert (Hfilt : filter g (StableSort values rows) =
                  filter g l1 ++ a :: filter g l2 ++ b :: filter g m2).
  { unfold g. rewrite stable_sort_filter. fold g.
    assert (Hga : g a = true) by apply Nat.eqb_refl.
    assert (Hgb : g b = true)
      by (unfold g; rewrite Heq; apply Nat.eqb_refl).
    clearbody g.
    rewrite Hrows, Hm1', <- app_assoc. simpl.
    rewrite filter_app. simpl. rewrite Hga, filter_app. simpl.
    rewrite Hgb. reflexivity. }
  destruct (filter_cut g a _ _ _ Hfilt) as [o1 [o2 [Ho [_ Ho2]]]].
  destruct (filter_cut g b _ _ _ Ho2) as [p1 [p2 [Hp [_ _]]]].
  exists (length o1), (length o1 + S (length p1)).
  rewrite Ho, Hp. split; [lia |]. split.
  - rewrite length_app. simpl. rewrite length_app. simpl. lia.
  - split.
    + apply nth_middle.
    + replace (o1 ++ a :: p1 ++ b :: p2) with ((o1 ++ a :: p1) ++ b :: p2)
        by (rewrite <- app_assoc; reflexivity).
      replace (length o1 + S (length p1)) with (length (o1 ++ a :: p1))
        by (rewrite length_app; reflexivity).
      apply nth_middle.
Qed.

(** C5: [Sort] orders the buffer by value, keeps its multiset of rows, and
    leaves empty and one-element buffers as they are. *)
Theorem sort_correct (values : list SetId) (rows : list nat) :
  (forall k, S k < length (Sort values rows) ->
     value values (nth k (Sort values rows) 0) <=
     value values (nth (S k) (Sort values rows) 0)) /\
  Permutation rows (Sort values rows) /\
  Sort values [] = [] /\
  (forall x, Sort values [x] = [x]).
Proof.
  split; [| split; [| split; [reflexivity | reflexivity]]].
  - apply sorted_nth.
    induction rows as [| a rows IH]; [constructor |].
    unfold Sort in *. simpl. apply insert_after_sorted. exact IH.
  - induction rows as [| a rows IH]; [reflexivity |].
    unfold Sort in *. simpl.
    etransitivity; [| apply insert_after_perm]. constructor. exact IH.
Qed.

(** ** Size *)

(** C9: [size()] is the element count cast to [uint32_t]: the count itself
    below [2^32], the count modulo [2^32] in general. *)
Theorem size_cast (values : list SetId) :
  (size values = Z.of_nat (length values) mod 2 ^ 32 /\
   (Z.of_nat (length values) < 2 ^ 32 -> size values = Z.of_nat (length values)))%Z.
Proof.
  split; [reflexivity |]. intros H. unfold size.
  apply Z.mod_small. lia.
Qed.

(** ** Instances on the column [0, 0, 1, 1, 1, 4] of the spec *)

Lemma search_eq_full_range_witness :
  valid [0; 0; 1; 1; 1; 4] /\
  exists lo hi,
    Search [0; 0; 1; 1; 1; 4] Eq 1 (mkRange 0 6) = RRange (mkRange lo hi) /\
    (forall i,
       memb (Search [0; 0; 1; 1; 1; 4] Eq 1 (mkRange 0 6)) i = true <->
       i < 6 /\ value [0; 0; 1; 1; 1; 4] i = 1).
Proof.
  split; [vm_compute; reflexivity |].
  apply (search_eq_full_range [0; 0; 1; 1; 1; 4] 1).
  vm_compute; reflexivity.
Defined.

Lemma narrowing_sound_witness :
  valid [0; 0; 1; 1; 1; 4] /\
  (forall i, i < 6 -> value [0; 0; 1; 1; 1; 4] i = 4 -> 4 <= i) /\
  (forall b e, b <= e <= 6 ->
     lower_bound (fun i => value [0; 0; 1; 1; 1; 4] i <? 4)
       (Nat.min (Nat.max b 4) e) e =
     lower_bound (fun i => value [0; 0; 1; 1; 1; 4] i <? 4) b e /\
     lower_bound (fun i => value [0; 0; 1; 1; 1; 4] i <=? 4)
       (Nat.min (Nat.max b 4) e) e =
     lower_bound (fun i => value [0; 0; 1; 1; 1; 4] i <=? 4) b e).
Proof.
  split; [vm_compute; reflexivity |].
  apply (narrowing_sound [0; 0; 1; 1; 1; 4] 4).
  vm_compute; reflexivity.
Defined.

Lemma search_lt_ge_partition_witness :
  valid [0; 0; 1; 1; 1; 4] /\ 1 <= 5 <= 6 /\
  exists x, 1 <= x <= 5 /\
    Search [0; 0; 1; 1; 1; 4] Lt 1 (mkRange 1 5) = RRange (mkRange 1 x).
Proof.
  assert (Hv : valid [0; 0; 1; 1; 1; 4]) by (vm_compute; reflexivity).
  split; [exact Hv |]. split; [lia |].
  exact (proj1 (proj2 (proj2
    (search_lt_ge_partition [0; 0; 1; 1; 1; 4] 1 1 5 Hv ltac:(simpl; lia))))).
Defined.

Lemma search_ne_complement_witness :
  valid [0; 0; 1; 1; 1; 4] /\ 0 <= 6 <= 6 /\
  (exists ps, Search [0; 0; 1; 1; 1; 4] Ne 1 (mkRange 0 6) = RBitVector ps).
Proof.
  assert (Hv : valid [0; 0; 1; 1; 1; 4]) by (vm_compute; reflexivity).
  split; [exact Hv |]. split; [lia |].
  exact (proj1 (search_ne_complement [0; 0; 1; 1; 1; 4] 1 0 6 Hv
                  ltac:(simpl; lia))).
Defined.

Lemma index_search_unsorted_correct_witness :
  In 2 (reported [5; 4; 3; 2; 1; 0]
          (IndexSearch [0; 0; 1; 1; 1; 4] Eq 1 [5; 4; 3; 2; 1; 0] false)) <->
  In 2 [5; 4; 3; 2; 1; 0] /\ eval_op Eq 1 (value [0; 0; 1; 1; 1; 4] 2) = true.
Proof.
  exact (proj1 (proj2 (index_search_unsorted_correct [0; 0; 1; 1; 1; 4] Eq 1
                         [5; 4; 3; 2; 1; 0])) 2).
Defined.

Lemma stable_sort_stable_witness :
  0 < 2 /\ 2 < 6 /\
  value [0; 0; 1; 1; 1; 4] (nth 0 [3; 0; 2; 5; 1; 4] 0) =
  value [0; 0; 1; 1; 1; 4] (nth 2 [3; 0; 2; 5; 1; 4] 0) /\
  exists j1 j2,
    j1 < j2 /\ j2 < length (StableSort [0; 0; 1; 1; 1; 4] [3; 0; 2; 5; 1; 4]) /\
    nth j1 (StableSort [0; 0; 1; 1; 1; 4] [3; 0; 2; 5; 1; 4]) 0 =
      nth 0 [3; 0; 2; 5; 1; 4] 0 /\
    nth j2 (StableSort [0; 0; 1; 1; 1; 4] [3; 0; 2; 5; 1; 4]) 0 =
      nth 2 [3; 0; 2; 5; 1; 4] 0.
Proof.
  split; [lia |]. split; [simpl; lia |]. split; [reflexivity |].
  apply (stable_sort_stable [0; 0; 1; 1; 1; 4] [3; 0; 2; 5; 1; 4] 0 2).
  - lia.
  - simpl; lia.
  - reflexivity.
Defined.

Lemma sort_correct_witness :
  Permutation [5; 3; 0; 2; 1; 4] (Sort [0; 0; 1; 1; 1; 4] [5; 3; 0; 2; 1; 4]).
Proof.
  exact (proj1 (proj2 (sort_correct [0; 0; 1; 1; 1; 4] [5; 3; 0; 2; 1; 4]))).
Defined.

Lemma size_cast_witness :
  (Z.of_nat (length [0; 0; 1]) < 2 ^ 32)%Z /\ size [0; 0; 1] = 3%Z.
Proof.
  split; [vm_compute; reflexivity |].
  apply (proj2 (size_cast [0; 0; 1])). vm_compute; reflexivity.
Defined.

End SetIdStorageFacts.

(** * Facts about the [ProcessStatsDataSource] constructor *)

Module ProcessStatsDataSourceFacts.

Import ProcessStatsDataSource.
Local Open Scope Z_scope.

(** C10: a configured poll period strictly between 0 and 100 ms is raised to
    100 ms, 0 and values of at least 100 are kept, and with a non-zero
    period the cache TTL in ticks is [max(ttl_ms / period_ms, 1)]. *)
Theorem construct_poll_period (cfg : ProcessStatsConfig) (ticks0 : Z) :
  is_uint32 (proc_stats_poll_ms cfg) ->
  is_uint32 (proc_stats_cache_ttl_ms cfg) ->
  (0 < proc_stats_poll_ms cfg < 100 ->
   poll_period_ms_ (construct cfg ticks0) = 100) /\
  (proc_stats_poll_ms cfg = 0 \/ 100 <= proc_stats_poll_ms cfg ->
   poll_period_ms_ (construct cfg ticks0) = proc_stats_poll_ms cfg) /\
  (poll_period_ms_ (construct cfg ticks0) <> 0 ->
   process_stats_cache_ttl_ticks_ (construct cfg ticks0) =
   Z.max (proc_stats_cache_ttl_ms cfg / poll_period_ms_ (construct cfg ticks0)) 1).
Proof.
  destruct cfg as [poll ttl]. unfold is_uint32, construct. cbn.
  intros Hp Ht.
  destruct (Z.ltb_spec 0 poll), (Z.ltb_spec poll 100); cbn.
  - split; [reflexivity |]. split; [lia |].
    intros _. reflexivity.
  - split; [lia |]. split; [reflexivity |].
    destruct (Z.ltb_spec 0 poll); [reflexivity | lia].
  - split; [lia |]. split; [reflexivity |].
    destruct (Z.ltb_spec 0 poll); [lia | intros; lia].
  - split; [lia |]. split; [reflexivity |].
    destruct (Z.ltb_spec 0 poll); [lia | intros; lia].
Qed.

Lemma construct_poll_period_witness :
  is_uint32 50 /\ is_uint32 1000 /\
  poll_period_ms_ (construct (mkConfig 50 1000) 0) = 100 /\
  process_stats_cache_ttl_ticks_ (construct (mkConfig 50 1000) 0) = 10.
Proof.
  assert (H1 : is_uint32 50) by (unfold is_uint32; lia).
  assert (H2 : is_uint32 1000) by (unfold is_uint32; lia).
  destruct (construct_poll_period (mkConfig 50 1000) 0 H1 H2) as [Hp [_ Ht]].
  split; [exact H1 |]. split; [exact H2 |].
  assert (Hpp : poll_period_ms_ (construct (mkConfig 50 1000) 0) = 100)
    by (apply Hp; cbn; lia).
  split; [exact Hpp |].
  rewrite Ht; rewrite Hpp; [reflexivity | discriminate].
Defined.

End ProcessStatsDataSourceFacts.

(** * Facts about reading [/proc/<pid>/status] *)

Module ProcStatusFacts.

Import ProcStatus.
Import Ascii.
Import (notations) String.

Lemma prefixb_app (key rest : str) : prefixb key (key ++ rest) = true.
Proof.
  induction key as [| k key IH]; simpl; [reflexivity |].
  rewrite Ascii.eqb_refl. exact IH.
Qed.

Lemma prefixb_firstn (key buf : str) :
  prefixb key buf = true -> firstn (length key) buf = key.
Proof.
  revert buf. induction key as [| k key IH]; intros buf H; [reflexivity |].
  destruct buf as [| c buf]; [discriminate |].
  simpl in H. apply andb_prop in H as [H1 H2].
  apply Ascii.eqb_eq in H1. subst c. simpl. rewrite (IH buf H2). reflexivity.
Qed.

Lemma prefixb_true (key buf : str) :
  prefixb key buf = true -> exists post, buf = key ++ post.
Proof.
  intros H. exists (skipn (length key) buf).
  rewrite <- (firstn_skipn (length key) buf) at 1.
  rewrite (prefixb_firstn key buf H). reflexivity.
Qed.

Lemma find_some (buf key : str) (p : nat) :
  find buf key = Some p ->
  exists pre post, buf = pre ++ key ++ post /\ length pre = p.
Proof.
  revert p. induction buf as [| c buf IH]; intros p H; simpl in H.
  - destruct key as [| k key]; simpl in H; [| discriminate].
    injection H as <-. exists [], []. split; reflexivity.
  - destruct (prefixb key (c :: buf)) eqn:Hp.
    + injection H as <-. destruct (prefixb_true _ _ Hp) as [post Hpost].
      exists [], post. split; [exact Hpost | reflexivity].
    + destruct (find buf key) as [q |] eqn:Hf; [| discriminate].
      injection H as <-. destruct (IH q eq_refl) as [pre [post [Hb Hl]]].
      exists (c :: pre), post. subst buf. split; [reflexivity |].
      simpl. rewrite Hl. reflexivity.
Qed.

Lemma find_first (pre key rest : str) :
  (forall p, p < length pre ->
     firstn (length key) (skipn p (pre ++ key ++ rest)) <> key) ->
  find (pre ++ key ++ rest) key = Some (length pre).
Proof.
  induction pre as [| c pre IH]; intros Hno.
  - simpl. destruct key as [| k key]; simpl; [destruct rest; reflexivity |].
    rewrite Ascii.eqb_refl, prefixb_app. reflexivity.
  - cbn [app find].
    destruct (prefixb key (c :: pre ++ key ++ rest)) eqn:Hp.
    + exfalso. apply (Hno 0); [simpl; lia |].
      apply prefixb_firstn. exact Hp.
    + rewrite IH; [reflexivity |].
      intros p Hlt. apply (Hno (S p)). simpl; lia.
Qed.

Lemma skipn_length_app (a b : str) (n : nat) :
  skipn (length a + n) (a ++ b) = skipn n b.
Proof. induction a as [| x a IH]; [reflexivity | exact IH]. Qed.

Lemma ffno_blanks (ws l : str) (i : nat) :
  Forall is_blank ws ->
  find_first_not_of_from [" "%char; TAB] (ws ++ l) i =
  find_first_not_of_from [" "%char; TAB] l (i + length ws).
Proof.
  revert i. induction ws as [| w ws IH]; intros i Hws.
  - simpl. rewrite Nat.add_0_r. reflexivity.
  - inversion Hws as [| ? ? Hw Hws']; subst.
    cbn [app find_first_not_of_from].
    replace (existsb (Ascii.eqb w) [" "%char; TAB]) with true
      by (destruct Hw as [-> | ->]; reflexivity).
    rewrite IH by exact Hws'. f_equal. simpl. lia.
Qed.

Lemma find_char_from_none (ch : ascii) (v l : str) (i : nat) :
  ~ In ch v ->
  find_char_from ch (v ++ l) i = find_char_from ch l (i + length v).
Proof.
  revert i. induction v as [| c v IH]; intros i Hv.
  - simpl. rewrite Nat.add_0_r. reflexivity.
  - simpl. destruct (Ascii.eqb_spec c ch) as [-> | Hne].
    + exfalso. apply Hv. left. reflexivity.
    + rewrite IH by (intros H; apply Hv; right; exact H).
      f_equal. lia.
Qed.

Lemma ffno_spec (set l : str) (i j : nat) :
  find_first_not_of_from set l i = Some j ->
  exists k c rest, j = i + k /\ skipn k l = c :: rest /\
                   existsb (Ascii.eqb c) set = false.
Proof.
  revert i. induction l as [| c l IH]; intros i H; simpl in H; [discriminate |].
  destruct (existsb (Ascii.eqb c) set) eqn:Hc.
  - destruct (IH (S i) H) as [k [c' [rest [Hj [Hs Hc']]]]].
    exists (S k), c', rest. split; [lia |]. split; assumption.
  - injection H as <-. exists 0, c, l. split; [lia |]. split; [reflexivity | exact Hc].
Qed.

Lemma find_char_spec (ch : ascii) (l : str) (i j : nat) :
  find_char_from ch l i = Some j ->
  exists k, j = i + k /\ ~ In ch (firstn k l).
Proof.
  revert i. induction l as [| c l IH]; intros i H; simpl in H; [discriminate |].
  destruct (Ascii.eqb_spec c ch) as [-> | Hne].
  - injection H as <-. exists 0. split; [lia | simpl; tauto].
  - destruct (IH (S i) H) as [k [Hj Hk]].
    exists (S k). split; [lia |]. simpl. intros [H' | H']; [exact (Hne H') | exact (Hk H')].
Qed.

(** [ReadProcStatusEntry] returns [""] when the key does not occur in the
    buffer. *)
Theorem ReadProcStatusEntry_missing_key (buf key : str) :
  (forall pre post, buf <> pre ++ key ++ post) ->
  ReadProcStatusEntry buf key = [].
Proof.
  intros Hno. unfold ReadProcStatusEntry.
  destruct (find buf key) as [b0 |] eqn:Hf; [| reflexivity].
  destruct (find_some buf key b0 Hf) as [pre [post [Hb _]]].
  exfalso. exact (Hno pre post Hb).
Qed.

(** Whatever the buffer and key, the entry read is a piece of the buffer
    that holds no newline and does not start with a blank or a tab. *)
Theorem ReadProcStatusEntry_shape (buf key : str) :
  ~ In NL (ReadProcStatusEntry buf key) /\
  (forall c r, ReadProcStatusEntry buf key = c :: r ->
     c <> " "%char /\ c <> TAB) /\
  (exists pre post, buf = pre ++ ReadProcStatusEntry buf key ++ post).
Proof.
  assert (Hempty : ~ In NL [] /\
                   (forall c r, @nil ascii = c :: r -> c <> " "%char /\ c <> TAB) /\
                   (exists pre post, buf = pre ++ [] ++ post)).
  { split; [simpl; tauto |]. split; [discriminate |].
    exists [], buf. reflexivity. }
  unfold ReadProcStatusEntry.
  destruct (find buf key) as [b0 |]; [| exact Hempty].
  destruct (find_first_not_of buf [" "%char; TAB] (b0 + length key))
    as [b1 |] eqn:Hb1; [| exact Hempty].
  destruct (find_char buf NL b1) as [e1 |] eqn:He1; [| exact Hempty].
  destruct (Nat.leb e1 b1) eqn:Hle; [exact Hempty |].
  apply Nat.leb_gt in Hle.
  unfold find_first_not_of in Hb1.
  destruct (ffno_spec _ _ _ _ Hb1) as [k0 [c [rest [Hb1eq [Hs Hc]]]]].
  rewrite skipn_skipn in Hs.
  replace (k0 + (b0 + length key)) with b1 in Hs by lia.
  unfold find_char in He1.
  destruct (find_char_spec _ _ _ _ He1) as [k [He1eq Hk]].
  replace (e1 - b1) with k by lia.
  unfold substr. split; [exact Hk |]. split.
  - destruct k as [| k]; [lia |].
    rewrite Hs. simpl. intros c' r' Heq. injection Heq as <- _.
    simpl in Hc. apply orb_false_elim in Hc as [H1 H2].
    apply orb_false_elim in H2 as [H2 _].
    split; intros ->; [rewrite Ascii.eqb_refl in H1 | rewrite Ascii.eqb_refl in H2];
      discriminate.
  - exists (firstn b1 buf), (skipn k (skipn b1 buf)).
    rewrite firstn_skipn. symmetry. apply firstn_skipn.
Qed.

(** Reading a well-formed entry: when the first occurrence of [key] is
    followed by blanks and tabs, then a value [v] that does not start with
    one and holds no newline, then a newline, the entry read is [v] (the
    empty string when [v] is empty).  The key is matched anywhere in the
    buffer, not only at the start of a line. *)
Theorem ReadProcStatusEntry_value (pre key ws v post : str) :
  (forall p, p < length pre ->
     firstn (length key) (skipn p (pre ++ key ++ ws ++ v ++ NL :: post)) <> key) ->
  Forall is_blank ws ->
  ~ In NL v ->
  (forall c v', v = c :: v' -> ~ is_blank c) ->
  ReadProcStatusEntry (pre ++ key ++ ws ++ v ++ NL :: post) key = v.
Proof.
  intros Hfirst Hws Hv Hhd. unfold ReadProcStatusEntry.
  rewrite (find_first pre key _ Hfirst).
  unfold find_first_not_of.
  rewrite skipn_length_app.
  replace (length key) with (length key + 0) by lia.
  rewrite skipn_length_app. rewrite Nat.add_0_r. cbn [skipn].
  rewrite ffno_blanks by exact Hws.
  set (b1 := length pre + length key + length ws).
  assert (Hb1 : find_first_not_of_from [" "%char; TAB] (v ++ NL :: post) b1
                = Some b1).
  { destruct v as [| c v'].
    - reflexivity.
    - cbn [app find_first_not_of_from].
      destruct (existsb (Ascii.eqb c) [" "%char; TAB]) eqn:Hc; [| reflexivity].
      exfalso. apply (Hhd c v' eq_refl).
      simpl in Hc. destruct (Ascii.eqb_spec c " "%char) as [-> | _];
        [left; reflexivity |].
      destruct (Ascii.eqb_spec c TAB) as [-> | _]; [right; reflexivity |].
      discriminate. }
  rewrite Hb1. unfold find_char.
  assert (Hskip : skipn b1 (pre ++ key ++ ws ++ v ++ NL :: post) = v ++ NL :: post).
  { subst b1. rewrite <- Nat.add_assoc, skipn_length_app.
    replace (length key + length ws) with (length key + (length ws + 0)) by lia.
    rewrite skipn_length_app, skipn_length_app. reflexivity. }
  rewrite Hskip, find_char_from_none by exact Hv.
  cbn [find_char_from]. rewrite Ascii.eqb_refl.
  destruct (Nat.leb (b1 + length v) b1) eqn:Hle.
  - apply Nat.leb_le in Hle. destruct v; [reflexivity | simpl in Hle; lia].
  - unfold substr. rewrite Hskip.
    replace (b1 + length v - b1) with (length v) by lia.
    rewrite firstn_app, firstn_all, Nat.sub_diag. simpl. apply app_nil_r.
Qed.

(** ** [ToU32] *)

Lemma digit_not_space (c : ascii) : is_digit c = true -> isspace c = false.
Proof.
  intros Hd. unfold isspace. simpl.
  repeat match goal with
  | |- context [Ascii.eqb c ?x] =>
      destruct (Ascii.eqb_spec c x) as [-> | _]; [discriminate Hd |]
  end.
  reflexivity.
Qed.

Lemma digit_not_sign (c : ascii) :
  is_digit c = true -> Ascii.eqb c "-" = false /\ Ascii.eqb c "+" = false.
Proof.
  intros Hd. split.
  - destruct (Ascii.eqb_spec c "-") as [-> | _]; [discriminate Hd | reflexivity].
  - destruct (Ascii.eqb_spec c "+") as [-> | _]; [discriminate Hd | reflexivity].
Qed.

Lemma skip_space_app (ws l : str) :
  Forall (fun c => isspace c = true) ws -> skip_space (ws ++ l) = skip_space l.
Proof.
  induction 1 as [| w ws Hw _ IH]; [reflexivity |].
  simpl. rewrite Hw. exact IH.
Qed.

Lemma digits_acc_app (acc : Z) (ds rest : str) :
  Forall (fun c => is_digit c = true) ds ->
  (forall c r, rest = c :: r -> is_digit c = false) ->
  digits_acc acc (ds ++ rest) =
  fold_left (fun acc c => (10 * acc + Z.of_nat (nat_of_ascii c - 48))%Z) ds acc.
Proof.
  intros Hds Hrest. revert acc. induction Hds as [| d ds Hd _ IH]; intros acc.
  - cbn [app fold_left]. destruct rest as [| c r]; [reflexivity |].
    cbn [digits_acc]. rewrite (Hrest c r eq_refl). reflexivity.
  - cbn [app fold_left digits_acc]. rewrite Hd. apply IH.
Qed.

Lemma decimal_fold_nonneg (ds : str) (acc : Z) :
  (0 <= acc)%Z ->
  (0 <= fold_left (fun acc c => (10 * acc + Z.of_nat (nat_of_ascii c - 48))%Z)
          ds acc)%Z.
Proof.
  revert acc. induction ds as [| d ds IH]; intros acc Hacc;
    cbn [fold_left]; [exact Hacc |].
  apply IH. lia.
Qed.

(** [ToU32] reads the decimal number after leading white space and an
    optional minus sign, stopping at the first non-digit; like [strtol] it
    saturates at [LONG_MAX] / [LONG_MIN], and the cast keeps the low 32
    bits. *)
Theorem ToU32_decimal (ws : str) (neg : bool) (ds rest : str) :
  Forall (fun c => isspace c = true) ws ->
  ds <> [] ->
  Forall (fun c => is_digit c = true) ds ->
  (forall c r, rest = c :: r -> is_digit c = false) ->
  ToU32 (ws ++ (if neg then ["-"%char] else []) ++ ds ++ rest) =
  ((if neg then Z.max LONG_MIN (- decimal_value ds)
    else Z.min LONG_MAX (decimal_value ds)) mod 2 ^ 32)%Z.
Proof.
  intros Hws Hne Hds Hrest. unfold ToU32, strtol.
  rewrite skip_space_app by exact Hws.
  destruct ds as [| d ds']; [contradiction |].
  pose proof (Forall_inv Hds) as Hd.
  pose proof (decimal_fold_nonneg (d :: ds') 0 ltac:(lia)) as Hnn.
  fold (decimal_value (d :: ds')) in Hnn.
  destruct neg.
  - cbn [app skip_space isspace existsb].
    replace (Ascii.eqb "-" " " || (Ascii.eqb "-" TAB || (Ascii.eqb "-" NL ||
             (Ascii.eqb "-" "011" || (Ascii.eqb "-" "012" ||
             (Ascii.eqb "-" "013" || false))))))%char with false by reflexivity.
    cbn [Ascii.eqb Bool.eqb].
    change (d :: ds' ++ rest) with ((d :: ds') ++ rest).
    rewrite (digits_acc_app 0 (d :: ds') rest Hds Hrest).
    fold (decimal_value (d :: ds')).
    f_equal. unfold LONG_MIN, LONG_MAX. lia.
  - cbn [app]. cbn [skip_space]. rewrite (digit_not_space d Hd).
    destruct (digit_not_sign d Hd) as [Hm Hp]. rewrite Hm, Hp.
    change (d :: ds' ++ rest) with ((d :: ds') ++ rest).
    rewrite (digits_acc_app 0 (d :: ds') rest Hds Hrest).
    fold (decimal_value (d :: ds')).
    f_equal. unfold LONG_MIN, LONG_MAX. lia.
Qed.

(** ** [WriteMemCounters] *)

Lemma mem_step_other (s : MemState) (c : ascii) :
  c <> NL ->
  has_mem_counters (mem_step s c) = has_mem_counters s /\
  cached (mem_step s c) = cached s /\
  writes (mem_step s c) = writes s.
Proof.
  intros Hc. unfold mem_step.
  destruct (Ascii.eqb_spec c NL) as [Heq | _]; [contradiction |].
  destruct (st s); [destruct (Ascii.eqb c ":") | destruct (isspace c) |];
    simpl; auto.
Qed.

Lemma fold_no_nl (l : str) (s : MemState) :
  ~ In NL l ->
  has_mem_counters (fold_left mem_step l s) = has_mem_counters s /\
  cached (fold_left mem_step l s) = cached s /\
  writes (fold_left mem_step l s) = writes s.
Proof.
  revert s. induction l as [| c l IH]; intros s Hl; [auto |].
  simpl. destruct (IH (mem_step s c)) as [H1 [H2 H3]].
  { intros H. apply Hl. right. exact H. }
  destruct (mem_step_other s c) as [G1 [G2 G3]].
  { intros ->. apply Hl. left. reflexivity. }
  rewrite H1, H2, H3, G1, G2, G3. auto.
Qed.

(** A trailing piece of the status text without a newline has no effect:
    [WriteMemCounters] only acts at the end of a line. *)
Theorem WriteMemCounters_unterminated_tail (cache0 : MemCounter -> Z)
    (text tail : str) :
  ~ In NL tail ->
  has_mem_counters (WriteMemCounters cache0 (text ++ tail)) =
    has_mem_counters (WriteMemCounters cache0 text) /\
  cached (WriteMemCounters cache0 (text ++ tail)) =
    cached (WriteMemCounters cache0 text) /\
  writes (WriteMemCounters cache0 (text ++ tail)) =
    writes (WriteMemCounters cache0 text).
Proof.
  intros Ht. unfold WriteMemCounters. rewrite fold_left_app.
  apply fold_no_nl. exact Ht.
Qed.

Lemma mem_step_char (s : MemState) (c : ascii) :
  c <> NL ->
  mem_step s c =
  match st s with
  | kKey =>
      if Ascii.eqb c ":" then
        mkMemState kSeparator (key s) (val s) (has_mem_counters s)
                   (cached s) (writes s)
      else
        mkMemState kKey (key s ++ [c]) (val s) (has_mem_counters s)
                   (cached s) (writes s)
  | kSeparator =>
      if isspace c then s
      else mkMemState kValue (key s) [c] (has_mem_counters s) (cached s) (writes s)
  | kValue =>
      mkMemState kValue (key s) (val s ++ [c]) (has_mem_counters s)
                 (cached s) (writes s)
  end.
Proof.
  intros Hc. unfold mem_step.
  destruct (Ascii.eqb_spec c NL) as [Heq | _]; [contradiction | reflexivity].
Qed.

Lemma key_after (l : str) (s : MemState) :
  ~ In NL l ->
  (st s = kKey -> key (fold_left mem_step l s) = key s ++ until_colon l) /\
  (st s <> kKey ->
     key (fold_left mem_step l s) = key s /\ st (fold_left mem_step l s) <> kKey).
Proof.
  revert s. induction l as [| c l IH]; intros s Hl.
  - simpl. rewrite app_nil_r. auto.
  - assert (Hc : c <> NL) by (intros ->; apply Hl; left; reflexivity).
    assert (Hl' : ~ In NL l) by (intros H; apply Hl; right; exact H).
    cbn [fold_left until_colon]. rewrite (mem_step_char s c Hc).
    split.
    + intros Hst. rewrite Hst.
      destruct (Ascii.eqb_spec c ":") as [-> | Hcol].
      * destruct (IH (mkMemState kSeparator (key s) (val s) (has_mem_counters s)
                                 (cached s) (writes s)) Hl') as [_ H].
        rewrite (proj1 (H ltac:(discriminate))). simpl. rewrite app_nil_r.
        reflexivity.
      * destruct (IH (mkMemState kKey (key s ++ [c]) (val s) (has_mem_counters s)
                                 (cached s) (writes s)) Hl') as [H _].
        rewrite (H eq_refl). simpl. rewrite <- app_assoc. reflexivity.
    + intros Hst. destruct (st s) eqn:Hs; [contradiction | |].
      * destruct (isspace c).
        -- apply (proj2 (IH s Hl')). rewrite Hs. discriminate.
        -- destruct (IH (mkMemState kValue (key s) [c] (has_mem_counters s)
                                   (cached s) (writes s)) Hl') as [_ H].
           apply H. discriminate.
      * destruct (IH (mkMemState kValue (key s) (val s ++ [c]) (has_mem_counters s)
                                 (cached s) (writes s)) Hl') as [_ H].
        apply H. discriminate.
Qed.

Lemma c_str_nul (k : str) : c_str (k ++ [NUL]) = c_str k.
Proof.
  induction k as [| c k IH]; [reflexivity |].
  simpl. destruct (Ascii.eqb c NUL); [reflexivity | rewrite IH; reflexivity].
Qed.

Lemma counter_of_key_vmsize (k : str) :
  match counter_of_key k with
  | Some m => MemCounter_eqb m VmSize
  | None => false
  end = str_eqb k (lit "VmSize"%string).
Proof.
  unfold counter_of_key.
  destruct (str_eqb k (lit "VmSize"%string)); [reflexivity |].
  repeat match goal with |- context [if ?b then _ else _] => destruct b end;
    reflexivity.
Qed.

Lemma line_step (l : str) (s : MemState) :
  ~ In NL l -> st s = kKey -> key s = [] ->
  let s' := fold_left mem_step (l ++ [NL]) s in
  st s' = kKey /\ key s' = [] /\
  has_mem_counters s' =
    has_mem_counters s || str_eqb (line_key l) (lit "VmSize"%string).
Proof.
  intros Hl Hst Hkey s'. subst s'. rewrite fold_left_app. cbn [fold_left].
  destruct (key_after l s Hl) as [Hk _].
  pose proof (Hk Hst) as Hk'. rewrite Hkey in Hk'. simpl in Hk'.
  destruct (fold_no_nl l s Hl) as [Hh _].
  set (s1 := fold_left mem_step l s) in *.
  unfold mem_step. rewrite Ascii.eqb_refl.
  rewrite Hk', c_str_nul.
  pose proof (counter_of_key_vmsize (c_str (until_colon l))) as Hv.
  unfold line_key. rewrite <- Hv, <- Hh.
  destruct (counter_of_key (c_str (until_colon l))) as [m |].
  - destruct (Z.eqb _ _); simpl; auto.
  - simpl. rewrite orb_false_r. auto.
Qed.

(** [WriteMemCounters] returns true exactly when some complete line's key
    (the text before its first colon, up to a NUL) is [VmSize]. *)
Theorem WriteMemCounters_has_vmsize (cache0 : MemCounter -> Z)
    (lines : list str) (tail : str) :
  Forall (fun l => ~ In NL l) lines -> ~ In NL tail ->
  has_mem_counters
    (WriteMemCounters cache0 (concat (map (fun l => l ++ [NL]) lines) ++ tail)) =
  existsb (fun l => str_eqb (line_key l) (lit "VmSize"%string)) lines.
Proof.
  intros Hlines Ht.
  unfold WriteMemCounters. rewrite fold_left_app, (proj1 (fold_no_nl tail _ Ht)).
  assert (Hgen : forall s, st s = kKey -> key s = [] ->
    has_mem_counters (fold_left mem_step (concat (map (fun l => l ++ [NL]) lines)) s) =
    has_mem_counters s ||
    existsb (fun l => str_eqb (line_key l) (lit "VmSize"%string)) lines).
  { induction Hlines as [| l lines Hl _ IH]; intros s Hst Hkey.
    - simpl. rewrite orb_false_r. reflexivity.
    - cbn [map concat]. rewrite fold_left_app.
      destruct (line_step l s Hl Hst Hkey) as [H1 [H2 H3]].
      rewrite (IH _ H1 H2), H3. cbn [existsb]. symmetry. apply orb_assoc. }
  rewrite (Hgen (mkMemState kKey [] [] false cache0 []) eq_refl eq_refl). reflexivity.
Qed.

Lemma writes_change_snoc (c : MemCounter -> Z) (ws : list (MemCounter * Z))
    (m : MemCounter) (v : Z) :
  writes_change c ws -> apply_writes c ws m <> v ->
  writes_change c (ws ++ [(m, v)]).
Proof.
  revert c. induction ws as [| [m' v'] ws IH]; intros c H Hne.
  - simpl. split; [exact Hne | exact I].
  - destruct H as [H1 H2]. simpl. split; [exact H1 |].
    apply IH; [exact H2 | exact Hne].
Qed.

Lemma apply_writes_snoc (c : MemCounter -> Z) (ws : list (MemCounter * Z))
    (m : MemCounter) (v : Z) :
  apply_writes c (ws ++ [(m, v)]) = upd (apply_writes c ws) m v.
Proof. unfold apply_writes. rewrite fold_left_app. reflexivity. Qed.

Lemma mem_step_writes_inv (cache0 : MemCounter -> Z) (s : MemState) (c : ascii) :
  (forall m, cached s m = apply_writes cache0 (writes s) m) ->
  writes_change cache0 (writes s) ->
  (forall m, cached (mem_step s c) m = apply_writes cache0 (writes (mem_step s c)) m) /\
  writes_change cache0 (writes (mem_step s c)).
Proof.
  intros Hc Hw. destruct (Ascii.eqb_spec c NL) as [-> | Hn].
  - unfold mem_step. rewrite Ascii.eqb_refl.
    destruct (counter_of_key _) as [m |]; [| simpl; auto].
    destruct (Z.eqb_spec (ToU32 (val s ++ [NUL])) (cached s m)) as [_ | Hne];
      simpl; [auto |].
    split.
    + intros m'. rewrite apply_writes_snoc. unfold upd.
      destruct (MemCounter_eqb m m'); auto.
    + apply writes_change_snoc; [exact Hw |]. rewrite <- Hc. auto.
  - destruct (mem_step_other s c Hn) as [_ [H2 H3]]. rewrite H2, H3. auto.
Qed.

(** Every counter write [WriteMemCounters] makes changes the cached value it
    replaces, and the cache it leaves is the initial cache with its writes
    replayed in order. *)
Theorem WriteMemCounters_writes_only_changes (cache0 : MemCounter -> Z)
    (text : str) :
  (forall m, cached (WriteMemCounters cache0 text) m =
             apply_writes cache0 (writes (WriteMemCounters cache0 text)) m) /\
  writes_change cache0 (writes (WriteMemCounters cache0 text)).
Proof.
  unfold WriteMemCounters.
  assert (Hgen : forall s,
    (forall m, cached s m = apply_writes cache0 (writes s) m) ->
    writes_change cache0 (writes s) ->
    (forall m, cached (fold_left mem_step text s) m =
               apply_writes cache0 (writes (fold_left mem_step text s)) m) /\
    writes_change cache0 (writes (fold_left mem_step text s))).
  { induction text as [| c text IH]; intros s Hc Hw; [auto |].
    simpl. destruct (mem_step_writes_inv cache0 s c Hc Hw) as [H1 H2].
    apply IH; assumption. }
  apply Hgen; simpl; auto.
Qed.

(** ** A counter line without a value *)

Lemma digits_acc_nul (acc : Z) (x y : str) :
  digits_acc acc (x ++ NUL :: y) = digits_acc acc (x ++ [NUL]).
Proof.
  revert acc. induction x as [| c x IH]; intros acc; [reflexivity |].
  cbn [app digits_acc]. destruct (is_digit c); [apply IH | reflexivity].
Qed.

Lemma skip_space_nul (x y : str) :
  exists z, skip_space (x ++ NUL :: y) = z ++ NUL :: y /\
            skip_space (x ++ [NUL]) = z ++ [NUL].
Proof.
  induction x as [| c x IH].
  - exists []. split; reflexivity.
  - cbn [app skip_space]. destruct (isspace c); [exact IH |].
    exists (c :: x). split; reflexivity.
Qed.

(** [strtol] stops at a NUL: what follows it does not matter. *)
Lemma ToU32_nul (x y : str) : ToU32 (x ++ NUL :: y) = ToU32 (x ++ [NUL]).
Proof.
  unfold ToU32, strtol. destruct (skip_space_nul x y) as [z [H1 H2]].
  rewrite H1, H2. destruct z as [| c z]; [reflexivity |].
  cbn [app].
  destruct (Ascii.eqb c "-"); [rewrite digits_acc_nul; reflexivity |].
  destruct (Ascii.eqb c "+"); [rewrite digits_acc_nul; reflexivity |].
  change (c :: z ++ NUL :: y) with ((c :: z) ++ NUL :: y).
  change (c :: z ++ [NUL]) with ((c :: z) ++ [NUL]).
  rewrite digits_acc_nul. reflexivity.
Qed.

Lemma MemCounter_eqb_refl (m : MemCounter) : MemCounter_eqb m m = true.
Proof. destruct m; reflexivity. Qed.

Lemma mem_step_nl (s : MemState) :
  st (mem_step s NL) = kKey /\ key (mem_step s NL) = [] /\
  val (mem_step s NL) = val s ++ [NUL] /\
  (forall m, counter_of_key (c_str (key s ++ [NUL])) = Some m ->
             cached (mem_step s NL) m = ToU32 (val s ++ [NUL])).
Proof.
  unfold mem_step. rewrite Ascii.eqb_refl. cbv zeta.
  destruct (counter_of_key (c_str (key s ++ [NUL]))) as [m0 |] eqn:Hc;
    [| repeat split; auto; discriminate].
  destruct (Z.eqb_spec (ToU32 (val s ++ [NUL])) (cached s m0)) as [He | Hne];
    (repeat split; auto); intros m Hm; inversion Hm; subst m; simpl.
  - symmetry. exact He.
  - unfold upd. rewrite MemCounter_eqb_refl. reflexivity.
Qed.

Lemma fold_key (k : str) (K V : str) (H : bool) (C : MemCounter -> Z)
    (W : list (MemCounter * Z)) :
  ~ In (":"%char) k -> ~ In NL k ->
  fold_left mem_step k (mkMemState kKey K V H C W) =
  mkMemState kKey (K ++ k) V H C W.
Proof.
  revert K. induction k as [| c k IH]; intros K Hcol Hnl.
  - rewrite app_nil_r. reflexivity.
  - cbn [fold_left].
    assert (Hc : c <> NL) by (intros ->; apply Hnl; left; reflexivity).
    rewrite (mem_step_char _ c Hc). cbn [st key val has_mem_counters cached writes].
    destruct (Ascii.eqb_spec c ":") as [-> | _];
      [exfalso; apply Hcol; left; reflexivity |].
    rewrite IH; [rewrite <- app_assoc; reflexivity | |];
      intros Hin; [apply Hcol | apply Hnl]; right; exact Hin.
Qed.

Lemma fold_blanks (ws : str) (K V : str) (H : bool) (C : MemCounter -> Z)
    (W : list (MemCounter * Z)) :
  Forall (fun c => isspace c = true /\ c <> NL) ws ->
  fold_left mem_step ws (mkMemState kSeparator K V H C W) =
  mkMemState kSeparator K V H C W.
Proof.
  induction 1 as [| c ws [Hs Hc] _ IH]; [reflexivity |].
  cbn [fold_left]. rewrite (mem_step_char _ c Hc). cbn [st]. rewrite Hs.
  exact IH.
Qed.

Lemma fold_value (r : str) (K V : str) (H : bool) (C : MemCounter -> Z)
    (W : list (MemCounter * Z)) :
  ~ In NL r ->
  fold_left mem_step r (mkMemState kValue K V H C W) =
  mkMemState kValue K (V ++ r) H C W.
Proof.
  revert V. induction r as [| c r IH]; intros V Hnl.
  - rewrite app_nil_r. reflexivity.
  - cbn [fold_left].
    assert (Hc : c <> NL) by (intros ->; apply Hnl; left; reflexivity).
    rewrite (mem_step_char _ c Hc). cbn [st key val has_mem_counters cached writes].
    rewrite IH; [rewrite <- app_assoc; reflexivity |].
    intros Hin. apply Hnl. right. exact Hin.
Qed.

Lemma c_str_plain (k : str) : ~ In NUL k -> c_str k = k.
Proof.
  induction k as [| c k IH]; intros Hk; [reflexivity |].
  simpl. destruct (Ascii.eqb_spec c NUL) as [-> | _];
    [exfalso; apply Hk; left; reflexivity |].
  rewrite IH; [reflexivity |]. intros Hin. apply Hk. right. exact Hin.
Qed.

(** [WriteMemCounters] does not reset [value] at the end of a line: a
    counter line with nothing after its colon (white space aside) sets the
    counter from the value of the line before it. *)
Theorem WriteMemCounters_empty_value_reuses_previous (cache0 : MemCounter -> Z)
    (text k1 ws1 v1 k2 ws2 : str) (m2 : MemCounter) :
  (text = [] \/ exists pre, text = pre ++ [NL]) ->
  ~ In (":"%char) k1 -> ~ In NL k1 ->
  Forall (fun c => isspace c = true /\ c <> NL) ws1 ->
  (exists c r, v1 = c :: r /\ isspace c = false) -> ~ In NL v1 ->
  ~ In (":"%char) k2 -> ~ In NL k2 -> ~ In NUL k2 -> counter_of_key k2 = Some m2 ->
  Forall (fun c => isspace c = true /\ c <> NL) ws2 ->
  cached (WriteMemCounters cache0
            (text ++ (k1 ++ ":"%char :: ws1 ++ v1) ++ NL ::
             (k2 ++ ":"%char :: ws2) ++ [NL])) m2 =
  ToU32 (v1 ++ [NUL]).
Proof.
  intros Htext Hk1c Hk1n Hws1 [c [r [-> Hc]]] Hv1 Hk2c Hk2n Hk2z Hm2 Hws2.
  unfold WriteMemCounters. rewrite fold_left_app.
  assert (Hs0 : st (fold_left mem_step text (mkMemState kKey [] [] false cache0 []))
                = kKey /\
                key (fold_left mem_step text (mkMemState kKey [] [] false cache0 []))
                = []).
  { destruct Htext as [-> | [pre ->]]; [split; reflexivity |].
    rewrite fold_left_app. cbn [fold_left].
    destruct (mem_step_nl (fold_left mem_step pre
                             (mkMemState kKey [] [] false cache0 [])))
      as (H1 & H2 & _). split; assumption. }
  destruct (fold_left mem_step text (mkMemState kKey [] [] false cache0 []))
    as [st0 key0 v0 h0 c0 w0].
  cbn [st key] in Hs0. destruct Hs0 as [-> ->].
  rewrite fold_left_app, fold_left_app, fold_key by assumption. cbn [fold_left app].
  replace (mem_step (mkMemState kKey k1 v0 h0 c0 w0) ":")
    with (mkMemState kSeparator k1 v0 h0 c0 w0) by reflexivity.
  rewrite (fold_left_app mem_step ws1 (c :: r)), fold_blanks by exact Hws1.
  cbn [fold_left].
  rewrite (mem_step_char _ c)
    by (intros ->; apply Hv1; left; reflexivity).
  cbn [st]. rewrite Hc. cbn [key val has_mem_counters cached writes].
  rewrite fold_value by (intros Hin; apply Hv1; right; exact Hin).
  cbn [app].
  destruct (mem_step_nl (mkMemState kValue k1 (c :: r) h0 c0 w0))
    as (H1 & H2 & H3 & _).
  destruct (mem_step (mkMemState kValue k1 (c :: r) h0 c0 w0) NL)
    as [st1 key1 v1' h1 c1 w1].
  cbn [st key val] in H1, H2, H3. subst st1 key1 v1'.
  rewrite fold_left_app, fold_left_app. cbn [fold_left app].
  rewrite fold_key by assumption. cbn [app].
  replace (mem_step (mkMemState kKey k2 (c :: r ++ [NUL]) h1 c1 w1) ":")
    with (mkMemState kSeparator k2 (c :: r ++ [NUL]) h1 c1 w1) by reflexivity.
  rewrite fold_blanks by assumption.
  destruct (mem_step_nl (mkMemState kSeparator k2 (c :: r ++ [NUL]) h1 c1 w1))
    as (_ & _ & _ & H4).
  rewrite H4.
  - cbn [val]. rewrite app_comm_cons, <- app_assoc.
    exact (ToU32_nul (c :: r) [NUL]).
  - cbn [key]. rewrite c_str_nul, c_str_plain by assumption. exact Hm2.
Qed.

(** ** Witnesses *)

Lemma find_unfold (buf key : str) :
  find buf key =
  if prefixb key buf then Some 0
  else match buf with
       | [] => None
       | _ :: buf' => option_map S (find buf' key)
       end.
Proof. destruct buf; reflexivity. Qed.

Lemma find_app_some (pre key post : str) : find (pre ++ key ++ post) key <> None.
Proof.
  rewrite find_unfold.
  induction pre as [| c pre IH].
  - rewrite app_nil_l, prefixb_app. discriminate.
  - destruct (prefixb key ((c :: pre) ++ key ++ post)); [discriminate |].
    cbn [app]. rewrite find_unfold.
    destruct (if prefixb key (pre ++ key ++ post) then Some 0 else _);
      [discriminate | contradiction].
Qed.

Lemma find_none (buf key : str) :
  find buf key = None -> forall pre post, buf <> pre ++ key ++ post.
Proof. intros H pre post ->. exact (find_app_some pre key post H). Qed.

Lemma not_in_of_existsb (c : ascii) (l : str) :
  existsb (Ascii.eqb c) l = false -> ~ In c l.
Proof.
  intros H Hin. apply (proj2 (not_true_iff_false _) H).
  apply existsb_exists. exists c. split; [exact Hin | apply Ascii.eqb_refl].
Qed.

Lemma Forall_of_forallb {A : Type} (f : A -> bool) (l : list A) :
  forallb f l = true -> Forall (fun x => f x = true) l.
Proof. intros H. apply Forall_forall. apply forallb_forall. exact H. Qed.

Lemma ReadProcStatusEntry_missing_key_witness :
  (forall pre post, (lit "Name:"%string ++ TAB :: lit "cat"%string ++ NL ::
     lit "Pid:"%string ++ TAB :: lit "42"%string ++ [NL]) <> pre ++ lit "Tgid:"%string ++ post) /\
  ReadProcStatusEntry ((lit "Name:"%string ++ TAB :: lit "cat"%string ++ NL ::
     lit "Pid:"%string ++ TAB :: lit "42"%string ++ [NL])) (lit "Tgid:"%string) = [].
Proof.
  assert (H : forall pre post, (lit "Name:"%string ++ TAB :: lit "cat"%string ++ NL ::
     lit "Pid:"%string ++ TAB :: lit "42"%string ++ [NL]) <> pre ++ lit "Tgid:"%string ++ post)
    by (apply find_none; vm_compute; reflexivity).
  split; [exact H | exact (ReadProcStatusEntry_missing_key _ _ H)].
Defined.

(** ["Pid:"] is found inside ["PPid:"]: the value of [PPid] is returned. *)
Lemma ReadProcStatusEntry_value_witness :
  ReadProcStatusEntry (lit "P"%string ++ lit "Pid:"%string ++ [TAB] ++
                       lit "12"%string ++ NL :: (lit "Pid:"%string ++ TAB :: lit "34"%string ++ [NL]))
                      (lit "Pid:"%string) = lit "12"%string.
Proof.
  apply ReadProcStatusEntry_value.
  - intros p Hp. destruct p; [vm_compute; discriminate | simpl in Hp; lia].
  - constructor; [right; reflexivity | constructor].
  - apply not_in_of_existsb. reflexivity.
  - intros c v' Hv. injection Hv as <- _. intros [H | H]; discriminate H.
Defined.

Lemma ToU32_decimal_witness :
  ToU32 ([" "%char] ++ ["-"%char] ++ lit "1"%string ++ lit " kB"%string) =
  4294967295%Z.
Proof.
  rewrite (ToU32_decimal [" "%char] true (lit "1"%string) (lit " kB"%string)).
  - vm_compute. reflexivity.
  - apply Forall_of_forallb. reflexivity.
  - discriminate.
  - apply Forall_of_forallb. reflexivity.
  - intros c r Hr. injection Hr as <- _. reflexivity.
Defined.

Lemma WriteMemCounters_unterminated_tail_witness :
  writes (WriteMemCounters (fun _ => 0%Z)
            ((lit "VmSize:"%string ++ TAB :: lit "10 kB"%string ++ [NL]) ++ (lit "VmRSS:"%string ++ TAB :: lit "5"%string))) =
  writes (WriteMemCounters (fun _ => 0%Z) ((lit "VmSize:"%string ++ TAB :: lit "10 kB"%string ++ [NL]))).
Proof.
  apply (WriteMemCounters_unterminated_tail (fun _ => 0%Z)).
  apply not_in_of_existsb. reflexivity.
Defined.

Lemma WriteMemCounters_has_vmsize_witness :
  has_mem_counters
    (WriteMemCounters (fun _ => 0%Z)
       (concat (map (fun l => l ++ [NL])
                    [lit "Name:"%string ++ TAB :: lit "cat"%string;
                     lit "VmSize:"%string ++ TAB :: lit "100 kB"%string]) ++
        lit "VmRSS"%string)) = true.
Proof.
  rewrite WriteMemCounters_has_vmsize.
  - reflexivity.
  - constructor; [| constructor; [| constructor]];
      apply not_in_of_existsb; reflexivity.
  - apply not_in_of_existsb. reflexivity.
Defined.

(** After ["VmRSS:\t12 kB"], an empty ["VmSwap:"] line sets [VmSwap] to 12. *)
Lemma WriteMemCounters_empty_value_reuses_previous_witness :
  cached (WriteMemCounters (fun _ => 0%Z)
            ([] ++ (lit "VmRSS"%string ++ ":"%char :: [TAB] ++ lit "12 kB"%string) ++
             NL :: (lit "VmSwap"%string ++ ":"%char :: []) ++ [NL])) VmSwap =
  12%Z.
Proof.
  rewrite (WriteMemCounters_empty_value_reuses_previous (fun _ => 0%Z) []
             (lit "VmRSS"%string) [TAB] (lit "12 kB"%string)
             (lit "VmSwap"%string) [] VmSwap).
  - vm_compute. reflexivity.
  - left. reflexivity.
  - apply not_in_of_existsb. reflexivity.
  - apply not_in_of_existsb. reflexivity.
  - constructor; [split; [reflexivity | discriminate] | constructor].
  - exists "1"%char, (lit "2 kB"%string). split; reflexivity.
  - apply not_in_of_existsb. reflexivity.
  - apply not_in_of_existsb. reflexivity.
  - apply not_in_of_existsb. reflexivity.
  - apply not_in_of_existsb. reflexivity.
  - vm_compute. reflexivity.
  - constructor.
Defined.

End ProcStatusFacts.

(** * Facts about [Tick] *)

Module PsTickFacts.

Import ProcessStatsDataSource PsTick.
Local Open Scope Z_scope.

Lemma tick_delay_range (p now : Z) :
  0 < p < 2 ^ 32 -> 0 <= now ->
  1 <= tick_delay p now <= p /\ (now + tick_delay p now) mod p = 0.
Proof.
  intros Hp Hn. unfold tick_delay.
  rewrite (Z.rem_mod_nonneg now p) by lia.
  pose proof (Z.mod_pos_bound now p ltac:(lia)) as Hr.
  rewrite (Z.mod_small (now mod p) (2 ^ 32)) by lia.
  rewrite (Z.mod_small (p - now mod p) (2 ^ 32)) by lia.
  split; [lia |].
  rewrite (Z.div_mod now p) at 1 by lia.
  replace (p * (now / p) + now mod p + (p - now mod p)) with ((now / p + 1) * p)
    by ring.
  apply Z.mod_mul. lia.
Qed.

Lemma construct_period_pos (cfg : ProcessStatsConfig) (t0 : Z) :
  0 < proc_stats_poll_ms cfg ->
  0 < poll_period_ms_ (construct cfg t0) /\
  poll_period_ms_ (construct cfg t0) = Z.max 100 (proc_stats_poll_ms cfg) /\
  process_stats_cache_ttl_ticks_ (construct cfg t0) =
    Z.max (proc_stats_cache_ttl_ms cfg / poll_period_ms_ (construct cfg t0)) 1.
Proof.
  intros Hp. unfold construct. cbn [poll_period_ms_ process_stats_cache_ttl_ticks_].
  destruct (Z.ltb_spec 0 (proc_stats_poll_ms cfg)); [| lia].
  destruct (Z.ltb_spec (proc_stats_poll_ms cfg) 100); cbn [andb].
  - rewrite (proj2 (Z.ltb_lt 0 100) ltac:(lia)). repeat split; lia.
  - rewrite (proj2 (Z.ltb_lt 0 (proc_stats_poll_ms cfg)) ltac:(lia)).
    repeat split; lia.
Qed.

(** The delay [Tick] posts for the next tick, with the period the
    constructor sets up, is between 1 ms and one period, and the next tick
    falls on a multiple of the period in wall-clock time. *)
Theorem Tick_delay_aligned (cfg : ProcessStatsConfig) (t0 now : Z) :
  0 < proc_stats_poll_ms cfg < 2 ^ 32 -> 0 <= now ->
  1 <= tick_delay (poll_period_ms_ (construct cfg t0)) now
    <= poll_period_ms_ (construct cfg t0) /\
  (now + tick_delay (poll_period_ms_ (construct cfg t0)) now)
    mod poll_period_ms_ (construct cfg t0) = 0.
Proof.
  intros Hp Hn.
  destruct (construct_period_pos cfg t0 ltac:(lia)) as [_ [Hper _]].
  apply tick_delay_range; [rewrite Hper; lia | exact Hn].
Qed.

Lemma run_ticks_from (ttl k : Z) (n j : nat) :
  1 <= ttl ->
  run_ticks ttl ((k + Z.of_nat j) mod ttl) n =
  ((k + Z.of_nat (j + n)) mod ttl,
   map (fun i => (k + Z.of_nat i + 1) mod ttl =? 0) (seq j n)).
Proof.
  intros Httl. revert j. induction n as [| n IH]; intros j.
  - rewrite Nat.add_0_r. reflexivity.
  - cbn [run_ticks seq map]. unfold cache_tick.
    pose proof (Z.mod_pos_bound (k + Z.of_nat j) ttl ltac:(lia)) as Hb.
    assert (Hs : (k + Z.of_nat (S j)) mod ttl
                 = ((k + Z.of_nat j) mod ttl + 1) mod ttl).
    { rewrite Z.add_mod_idemp_l by lia. f_equal. lia. }
    replace (j + S n)%nat with (S j + n)%nat by lia.
    replace (k + Z.of_nat j + 1) with (k + Z.of_nat (S j)) by lia.
    destruct (Z.eqb_spec ((k + Z.of_nat j) mod ttl + 1) ttl) as [He | Hne].
    + assert (H0 : (k + Z.of_nat (S j)) mod ttl = 0).
      { rewrite Hs, He. apply Z.mod_same. lia. }
      rewrite <- H0 at 1. rewrite (IH (S j)), H0. reflexivity.
    + assert (H1 : (k + Z.of_nat (S j)) mod ttl = (k + Z.of_nat j) mod ttl + 1).
      { rewrite Hs. apply Z.mod_small. lia. }
      rewrite <- H1. rewrite (IH (S j)).
      rewrite H1. replace ((k + Z.of_nat j) mod ttl + 1 =? 0) with false
        by (symmetry; apply Z.eqb_neq; lia).
      reflexivity.
Qed.

(** Starting from a zero counter, with the TTL the constructor computes,
    [Tick] clears [process_stats_cache_] exactly on every TTL-th tick, and
    after [n] ticks the counter is [n mod ttl]. *)
Theorem Tick_cache_cleared_every_ttl (cfg : ProcessStatsConfig) (t0 : Z)
    (n : nat) :
  0 < proc_stats_poll_ms cfg ->
  run_ticks (process_stats_cache_ttl_ticks_ (construct cfg t0)) 0 n =
  (Z.of_nat n mod process_stats_cache_ttl_ticks_ (construct cfg t0),
   map (fun i => (Z.of_nat i + 1) mod process_stats_cache_ttl_ticks_
                   (construct cfg t0) =? 0) (seq 0 n)).
Proof.
  intros Hp.
  destruct (construct_period_pos cfg t0 Hp) as [_ [_ Httl]].
  assert (H1 : 1 <= process_stats_cache_ttl_ticks_ (construct cfg t0))
    by (rewrite Httl; lia).
  pose proof (run_ticks_from _ 0 n 0 H1) as H.
  rewrite Z.add_0_r, Z.mod_0_l in H by lia.
  rewrite H. reflexivity.
Qed.

(** ** Witnesses *)

Lemma Tick_delay_aligned_witness :
  tick_delay (poll_period_ms_ (construct (mkConfig 250 1000) 0)) 1234 = 16 /\
  (1234 + tick_delay (poll_period_ms_ (construct (mkConfig 250 1000) 0)) 1234)
    mod poll_period_ms_ (construct (mkConfig 250 1000) 0) = 0.
Proof.
  split; [vm_compute; reflexivity |].
  exact (proj2 (Tick_delay_aligned (mkConfig 250 1000) 0 1234
                  ltac:(simpl; lia) ltac:(lia))).
Defined.

Lemma Tick_cache_cleared_every_ttl_witness :
  snd (run_ticks (process_stats_cache_ttl_ticks_ (construct (mkConfig 250 1000) 0))
                 0 9) =
  [false; false; false; true; false; false; false; true; false].
Proof.
  rewrite (Tick_cache_cleared_every_ttl (mkConfig 250 1000) 0 9 ltac:(simpl; lia)).
  vm_compute. reflexivity.
Defined.

End PsTickFacts.

(** * Facts about the packets of [ProcessStatsDataSource] *)

Module PsWriterFacts.

Import PsWriter.
Import (notations) String.
Local Open Scope Z_scope.

Section FoldRel.

Variable R : Writer -> Writer -> Prop.
Hypothesis R_refl : forall w, R w w.
Hypothesis R_trans : forall w1 w2 w3, R w1 w2 -> R w2 w3 -> R w1 w3.

Lemma fold_rel {A : Type} (f : Writer -> A -> Writer) (l : list A) (w : Writer) :
  (forall w a, R w (f w a)) -> R w (fold_left f l w).
Proof.
  intros Hf. revert w. induction l as [| a l IH]; intros w; simpl.
  - apply R_refl.
  - eapply R_trans; [apply Hf | apply IH].
Qed.

End FoldRel.

(** ** What the functions leave alone *)

Lemma StartNewPacketIfNeeded_fields (now : Z) (w w' : Writer) :
  w' = StartNewPacketIfNeeded now w ->
  cur_packet_ w' = true /\ cur_ps_tree_ w' = cur_ps_tree_ w /\
  cur_ps_stats_ w' = cur_ps_stats_ w /\
  cur_ps_stats_process_ w' = cur_ps_stats_process_ w /\
  tids_to_pids_ w' = tids_to_pids_ w /\ seen_fds_ w' = seen_fds_ w.
Proof.
  intros ->. unfold StartNewPacketIfNeeded, CacheProcFsScanStartTimestamp.
  destruct (cur_packet_ w) eqn:Hp; [simpl; intuition |].
  unfold set_handles, set_scan_ts, set_did_clear, emit. cbn.
  destruct (cur_procfs_scan_start_timestamp_ w =? 0); cbn;
    destruct (did_clear_incremental_state_ w); cbn; intuition.
Qed.

Lemma GetOrCreatePsTree_fields (now : Z) (w w' : Writer) :
  w' = GetOrCreatePsTree now w ->
  cur_packet_ w' = true /\ cur_ps_tree_ w' = true /\ cur_ps_stats_ w' = false /\
  cur_ps_stats_process_ w' = None /\
  tids_to_pids_ w' = tids_to_pids_ w /\ seen_fds_ w' = seen_fds_ w.
Proof.
  intros ->. unfold GetOrCreatePsTree.
  destruct (StartNewPacketIfNeeded_fields now w _ eq_refl)
    as (H1 & _ & _ & _ & H5 & H6).
  destruct (cur_ps_tree_ (StartNewPacketIfNeeded now w)) eqn:Ht;
    unfold set_handles, emit; cbn; intuition.
Qed.

Lemma GetOrCreateStats_fields (now : Z) (w w' : Writer) :
  w' = GetOrCreateStats now w ->
  cur_packet_ w' = true /\ cur_ps_tree_ w' = false /\ cur_ps_stats_ w' = true /\
  cur_ps_stats_process_ w' = None /\
  tids_to_pids_ w' = tids_to_pids_ w /\ seen_fds_ w' = seen_fds_ w.
Proof.
  intros ->. unfold GetOrCreateStats.
  destruct (StartNewPacketIfNeeded_fields now w _ eq_refl)
    as (H1 & _ & _ & _ & H5 & H6).
  destruct (cur_ps_stats_ (StartNewPacketIfNeeded now w)) eqn:Hs;
    unfold set_handles, emit; cbn; intuition.
Qed.

Lemma GetOrCreateStatsProcess_fields (now pid : Z) (w : Writer) (p : Z)
    (w' : Writer) :
  GetOrCreateStatsProcess now pid w = (p, w') ->
  cur_ps_stats_process_ w' = Some p /\
  tids_to_pids_ w' = tids_to_pids_ w /\ seen_fds_ w' = seen_fds_ w /\
  (cur_ps_stats_process_ w = Some p /\ w' = w \/
   cur_ps_stats_process_ w = None /\ p = pid /\
   cur_packet_ w' = true /\ cur_ps_tree_ w' = false /\ cur_ps_stats_ w' = true).
Proof.
  unfold GetOrCreateStatsProcess.
  destruct (cur_ps_stats_process_ w) as [q |] eqn:Hsp; intros E.
  - inversion E; subst.
    split; [exact Hsp |]. split; [reflexivity |]. split; [reflexivity |].
    left. split; reflexivity.
  - inversion E; subst.
    destruct (GetOrCreateStats_fields now w _ eq_refl)
      as (H1 & H2 & H3 & _ & H5 & H6).
    unfold set_stats_process, set_handles, emit; cbn.
    split; [reflexivity |]. split; [exact H5 |]. split; [exact H6 |].
    right. auto.
Qed.


(** ** The handle invariant *)

Lemma keeps_handles_refl (w : Writer) : keeps_handles w w.
Proof. unfold keeps_handles. auto. Qed.

Lemma keeps_handles_trans (w1 w2 w3 : Writer) :
  keeps_handles w1 w2 -> keeps_handles w2 w3 -> keeps_handles w1 w3.
Proof. unfold keeps_handles. auto. Qed.

Lemma handles_ok_StartNewPacketIfNeeded (now : Z) (w : Writer) :
  keeps_handles w (StartNewPacketIfNeeded now w).
Proof.
  unfold keeps_handles, handles_ok.
  destruct (StartNewPacketIfNeeded_fields now w _ eq_refl)
    as (H1 & H2 & H3 & H4 & _ & _).
  rewrite H1, H2, H3, H4. intuition.
Qed.

Lemma handles_ok_GetOrCreatePsTree (now : Z) (w : Writer) :
  keeps_handles w (GetOrCreatePsTree now w).
Proof.
  unfold keeps_handles, handles_ok.
  destruct (GetOrCreatePsTree_fields now w _ eq_refl)
    as (H1 & H2 & H3 & H4 & _ & _).
  rewrite H1, H2, H3, H4. intuition.
Qed.

Lemma handles_ok_GetOrCreateStats (now : Z) (w : Writer) :
  keeps_handles w (GetOrCreateStats now w).
Proof.
  unfold keeps_handles, handles_ok.
  destruct (GetOrCreateStats_fields now w _ eq_refl)
    as (H1 & H2 & H3 & H4 & _ & _).
  rewrite H1, H2, H3, H4. intuition.
Qed.

Lemma handles_ok_GetOrCreateStatsProcess (now pid : Z) (w : Writer) :
  keeps_handles w (snd (GetOrCreateStatsProcess now pid w)).
Proof.
  unfold keeps_handles.
  destruct (GetOrCreateStatsProcess now pid w) as [p w'] eqn:E. simpl.
  destruct (GetOrCreateStatsProcess_fields now pid w p w' E)
    as (H1 & _ & _ & [[_ ->] | (_ & _ & H3 & H4 & H5)]); [auto |].
  intros _. unfold handles_ok. rewrite H1, H3, H4, H5. intuition.
Qed.

Lemma handles_ok_FinalizeCurPacket (now : Z) (w : Writer) :
  keeps_handles w (FinalizeCurPacket now w).
Proof.
  unfold keeps_handles, FinalizeCurPacket, handles_ok. simpl. intuition.
Qed.

Lemma handles_ok_WriteSingleFd (rl : Z -> Z -> option String.string)
    (now tid fd : Z) (w : Writer) :
  keeps_handles w (WriteSingleFd rl now tid fd w).
Proof.
  unfold WriteSingleFd. cbv zeta.
  destruct (existsb _ _); [apply keeps_handles_refl |].
  destruct (rl _ fd) as [path |]; [| apply keeps_handles_refl].
  pose proof (handles_ok_GetOrCreateStatsProcess now
    (match lookup tid (tids_to_pids_ w) with Some p => p | None => tid end) w)
    as H.
  destruct (GetOrCreateStatsProcess _ _ w) as [p w1]. simpl in H.
  unfold keeps_handles in *. intros Hw. specialize (H Hw).
  unfold handles_ok in *. simpl. exact H.
Qed.

Lemma handles_ok_OnFds (rl : Z -> Z -> option String.string) (resolve : bool)
    (now : Z) (fds : list (Z * list Z)) (w : Writer) :
  keeps_handles w (OnFds rl resolve now fds w).
Proof.
  unfold OnFds. destruct (negb resolve); [apply keeps_handles_refl |].
  eapply keeps_handles_trans; [| apply handles_ok_FinalizeCurPacket].
  apply (fold_rel keeps_handles keeps_handles_refl keeps_handles_trans).
  intros w' [pid fs]. simpl.
  apply (keeps_handles_trans _ (set_stats_process None w')).
  - unfold keeps_handles, handles_ok, set_stats_process, set_handles. simpl.
    intuition.
  - apply (fold_rel keeps_handles keeps_handles_refl keeps_handles_trans).
    intros. apply handles_ok_WriteSingleFd.
Qed.

Lemma handles_ok_run_op (o : Op) (w : Writer) : keeps_handles w (run_op o w).
Proof.
  destruct o; simpl.
  - apply handles_ok_StartNewPacketIfNeeded.
  - apply handles_ok_GetOrCreatePsTree.
  - apply handles_ok_GetOrCreateStats.
  - apply handles_ok_GetOrCreateStatsProcess.
  - apply handles_ok_FinalizeCurPacket.
  - apply handles_ok_WriteSingleFd.
  - apply handles_ok_OnFds.
  - unfold keeps_handles, handles_ok, ClearIncrementalState. simpl. auto.
Qed.

(** Whatever sequence of these calls runs, the handles stay consistent: a
    [process_tree] or [process_stats] handle is only open inside an open
    packet, the two are never open together, and an open
    [ProcessStats.Process] belongs to an open [process_stats]; these are the
    [DCHECK]s of [FinalizeCurPacket]. *)
Theorem handles_ok_run_ops (ops : list Op) (w : Writer) :
  handles_ok w -> handles_ok (run_ops ops w).
Proof.
  apply (fold_rel keeps_handles keeps_handles_refl keeps_handles_trans).
  intros. apply handles_ok_run_op.
Qed.

(** ** The [incremental_state_cleared] flag *)

Lemma packet_flags_app (l1 l2 : list Event) :
  packet_flags (l1 ++ l2) = packet_flags l1 ++ packet_flags l2.
Proof.
  induction l1 as [| e l1 IH]; [reflexivity |].
  destruct e; simpl; rewrite ?IH; reflexivity.
Qed.

Lemma flag_step_same (w w' : Writer) :
  out w' = out w -> did_clear_incremental_state_ w' = did_clear_incremental_state_ w ->
  flag_step w w'.
Proof.
  intros Ho Hd. exists []. rewrite app_nil_r. split; [exact Ho |].
  left. auto.
Qed.

Lemma flag_step_refl (w : Writer) : flag_step w w.
Proof. apply flag_step_same; reflexivity. Qed.

Lemma flag_step_trans (w1 w2 w3 : Writer) :
  flag_step w1 w2 -> flag_step w2 w3 -> flag_step w1 w3.
Proof.
  intros [n1 [H1 F1]] [n2 [H2 F2]]. exists (n1 ++ n2).
  split; [rewrite H2, H1, app_assoc; reflexivity |].
  rewrite packet_flags_app.
  destruct F1 as [[E1 D1] | [k1 [E1 D1]]]; rewrite E1; rewrite D1 in F2;
    [exact F2 |].
  destruct F2 as [[E2 D2] | [k2 [E2 D2]]]; rewrite E2, D2.
  - right. exists k1. rewrite app_nil_r. auto.
  - right. exists (k1 + S k2)%nat. split; [| reflexivity].
    simpl. rewrite repeat_app. reflexivity.
Qed.

Lemma flag_step_emit (e : Event) (w : Writer) :
  packet_flags [e] = [] -> flag_step w (emit e w).
Proof.
  intros He. exists [e]. split; [reflexivity |]. rewrite He. left. auto.
Qed.

Lemma flag_step_StartNewPacketIfNeeded (now : Z) (w : Writer) :
  flag_step w (StartNewPacketIfNeeded now w).
Proof.
  unfold StartNewPacketIfNeeded, CacheProcFsScanStartTimestamp.
  destruct (cur_packet_ w); [apply flag_step_refl |].
  unfold set_handles, set_scan_ts, set_did_clear, emit; cbn.
  destruct (cur_procfs_scan_start_timestamp_ w =? 0); cbn;
    destruct (did_clear_incremental_state_ w) eqn:Hd; cbn;
    (eexists; split; [reflexivity |]); right; exists 0%nat; rewrite Hd;
    auto.
Qed.

Lemma flag_step_post_emit (e : Event) (w w' : Writer) :
  flag_step w w' -> packet_flags [e] = [] -> flag_step w (emit e w').
Proof. intros H He. eapply flag_step_trans; [exact H | apply flag_step_emit, He]. Qed.

Lemma flag_step_post_handles (a b c : bool) (d : option Z) (w w' : Writer) :
  flag_step w w' -> flag_step w (set_handles a b c d w').
Proof.
  intros H. eapply flag_step_trans; [exact H |]. apply flag_step_same; reflexivity.
Qed.

Lemma flag_step_post_scan_ts (ts : Z) (w w' : Writer) :
  flag_step w w' -> flag_step w (set_scan_ts ts w').
Proof.
  intros H. eapply flag_step_trans; [exact H |]. apply flag_step_same; reflexivity.
Qed.

Lemma flag_step_post_seen (pid fd : Z) (w w' : Writer) :
  flag_step w w' -> flag_step w (add_seen_fd pid fd w').
Proof.
  intros H. eapply flag_step_trans; [exact H |]. apply flag_step_same; reflexivity.
Qed.

Lemma flag_step_GetOrCreatePsTree (now : Z) (w : Writer) :
  flag_step w (GetOrCreatePsTree now w).
Proof.
  unfold GetOrCreatePsTree. cbv zeta. apply flag_step_post_handles.
  destruct (cur_ps_tree_ (StartNewPacketIfNeeded now w));
    [apply flag_step_StartNewPacketIfNeeded |].
  apply flag_step_post_handles, flag_step_post_emit;
    [apply flag_step_StartNewPacketIfNeeded | reflexivity].
Qed.

Lemma flag_step_GetOrCreateStats (now : Z) (w : Writer) :
  flag_step w (GetOrCreateStats now w).
Proof.
  unfold GetOrCreateStats. cbv zeta. apply flag_step_post_handles.
  destruct (cur_ps_stats_ (StartNewPacketIfNeeded now w));
    [apply flag_step_StartNewPacketIfNeeded |].
  apply flag_step_post_handles, flag_step_post_emit;
    [apply flag_step_StartNewPacketIfNeeded | reflexivity].
Qed.

Lemma flag_step_GetOrCreateStatsProcess (now pid : Z) (w : Writer) :
  flag_step w (snd (GetOrCreateStatsProcess now pid w)).
Proof.
  unfold GetOrCreateStatsProcess.
  destruct (cur_ps_stats_process_ w); [apply flag_step_refl |]. simpl.
  unfold set_stats_process. apply flag_step_post_handles, flag_step_post_emit;
    [apply flag_step_GetOrCreateStats | reflexivity].
Qed.

Lemma flag_step_FinalizeCurPacket (now : Z) (w : Writer) :
  flag_step w (FinalizeCurPacket now w).
Proof.
  unfold FinalizeCurPacket. cbv zeta.
  apply flag_step_post_scan_ts, flag_step_post_handles.
  destruct (cur_ps_tree_ w).
  - destruct (cur_ps_stats_ (emit (TreeEnd now) w)).
    + apply flag_step_post_emit; [| reflexivity].
      apply flag_step_post_emit; [apply flag_step_refl | reflexivity].
    + apply flag_step_post_emit; [apply flag_step_refl | reflexivity].
  - destruct (cur_ps_stats_ w);
      [apply flag_step_post_emit; [apply flag_step_refl | reflexivity]
      | apply flag_step_refl].
Qed.

Lemma flag_step_WriteSingleFd (rl : Z -> Z -> option String.string)
    (now tid fd : Z) (w : Writer) :
  flag_step w (WriteSingleFd rl now tid fd w).
Proof.
  unfold WriteSingleFd. cbv zeta.
  destruct (existsb _ _); [apply flag_step_refl |].
  destruct (rl _ fd) as [path |]; [| apply flag_step_refl].
  pose proof (flag_step_GetOrCreateStatsProcess now
    (match lookup tid (tids_to_pids_ w) with Some p => p | None => tid end) w)
    as H.
  destruct (GetOrCreateStatsProcess _ _ w) as [p w1]. simpl in H.
  apply flag_step_post_seen, flag_step_post_emit; [exact H | reflexivity].
Qed.

Lemma flag_step_OnFds (rl : Z -> Z -> option String.string) (resolve : bool)
    (now : Z) (fds : list (Z * list Z)) (w : Writer) :
  flag_step w (OnFds rl resolve now fds w).
Proof.
  unfold OnFds. destruct (negb resolve); [apply flag_step_refl |].
  eapply flag_step_trans; [| apply flag_step_FinalizeCurPacket].
  apply (fold_rel flag_step flag_step_refl flag_step_trans).
  intros w' [pid fs]. simpl.
  apply (flag_step_trans _ (set_stats_process None w'));
    [apply flag_step_same; reflexivity |].
  apply (fold_rel flag_step flag_step_refl flag_step_trans).
  intros. apply flag_step_WriteSingleFd.
Qed.

Lemma flag_step_run_ops (ops : list Op) (w : Writer) :
  forallb (fun o => negb (is_clear o)) ops = true ->
  flag_step w (run_ops ops w).
Proof.
  unfold run_ops. revert w.
  induction ops as [| o ops IH]; intros w Hops; [apply flag_step_refl |].
  simpl in Hops. apply andb_prop in Hops. destruct Hops as [Ho Hops].
  simpl. eapply flag_step_trans; [| apply IH; exact Hops].
  destruct o; simpl in Ho |- *; try discriminate.
  - apply flag_step_StartNewPacketIfNeeded.
  - apply flag_step_GetOrCreatePsTree.
  - apply flag_step_GetOrCreateStats.
  - apply flag_step_GetOrCreateStatsProcess.
  - apply flag_step_FinalizeCurPacket.
  - apply flag_step_WriteSingleFd.
  - apply flag_step_OnFds.
Qed.

(** After [ClearIncrementalState], of the packets written until the next
    [ClearIncrementalState], the first one (if any) has
    [incremental_state_cleared] set and no later one does. *)
Theorem ClearIncrementalState_flags_first_packet (ops : list Op) (w : Writer) :
  forallb (fun o => negb (is_clear o)) ops = true ->
  exists new, out (run_ops (OpClearIncrementalState :: ops) w) = out w ++ new /\
  (packet_flags new = [] \/ exists n, packet_flags new = true :: repeat false n).
Proof.
  intros Hops.
  destruct (flag_step_run_ops ops (ClearIncrementalState w) Hops)
    as [new [Hout Hfl]].
  exists new. split; [exact Hout |].
  destruct Hfl as [[-> _] | [n [Hn _]]]; [left; reflexivity | right; exists n; exact Hn].
Qed.

(** Without [ClearIncrementalState] and with no pending clear, no packet has
    [incremental_state_cleared] set. *)
Theorem no_clear_no_flag (ops : list Op) (w : Writer) :
  did_clear_incremental_state_ w = false ->
  forallb (fun o => negb (is_clear o)) ops = true ->
  exists new, out (run_ops ops w) = out w ++ new /\
  forallb negb (packet_flags new) = true.
Proof.
  intros Hd Hops.
  destruct (flag_step_run_ops ops w Hops) as [new [Hout Hfl]].
  exists new. split; [exact Hout |]. rewrite Hd in Hfl.
  destruct Hfl as [[-> _] | [n [-> _]]]; [reflexivity |].
  simpl. induction n as [| n IH]; [reflexivity | exact IH].
Qed.

(** ** The fds of a process *)



Lemma entry_step_refl (w : Writer) : entry_step w w.
Proof. exists []. rewrite app_nil_r. simpl. auto. Qed.

Lemma entry_step_trans (w1 w2 w3 : Writer) :
  entry_step w1 w2 -> entry_step w2 w3 -> entry_step w1 w3.
Proof.
  intros [n1 [H1 C1]] [n2 [H2 C2]]. exists (n1 ++ n2).
  split; [rewrite H2, H1, app_assoc; reflexivity |].
  rewrite filter_app, length_app. lia.
Qed.

(** The events of [StartNewPacketIfNeeded] and [GetOrCreateStats]: no
    [ProcessStats.Process] among them. *)
Lemma StartNewPacketIfNeeded_no_entry (now : Z) (w : Writer) :
  exists new, out (StartNewPacketIfNeeded now w) = out w ++ new /\
  filter is_add_process new = [].
Proof.
  unfold StartNewPacketIfNeeded, CacheProcFsScanStartTimestamp.
  destruct (cur_packet_ w); [exists []; rewrite app_nil_r; auto |].
  unfold set_handles, set_scan_ts, set_did_clear, emit; cbn.
  destruct (cur_procfs_scan_start_timestamp_ w =? 0); cbn;
    destruct (did_clear_incremental_state_ w); cbn;
    (eexists; split; [reflexivity | reflexivity]).
Qed.

Lemma GetOrCreateStats_no_entry (now : Z) (w : Writer) :
  exists new, out (GetOrCreateStats now w) = out w ++ new /\
  filter is_add_process new = [].
Proof.
  destruct (StartNewPacketIfNeeded_no_entry now w) as [n1 [H1 F1]].
  unfold GetOrCreateStats. cbv zeta.
  destruct (cur_ps_stats_ (StartNewPacketIfNeeded now w)).
  - exists n1. split; [exact H1 | exact F1].
  - exists (n1 ++ [SetProcessStats]). cbn. rewrite H1, app_assoc.
    split; [reflexivity |]. rewrite filter_app, F1. reflexivity.
Qed.

Lemma entry_step_WriteSingleFd (rl : Z -> Z -> option String.string)
    (now tid fd : Z) (w : Writer) :
  entry_step w (WriteSingleFd rl now tid fd w).
Proof.
  unfold WriteSingleFd. cbv zeta.
  destruct (existsb _ _); [apply entry_step_refl |].
  destruct (rl _ fd) as [path |]; [| apply entry_step_refl].
  unfold GetOrCreateStatsProcess.
  destruct (cur_ps_stats_process_ w) as [q |] eqn:Hsp.
  - exists [AddFd fd path]. unfold add_seen_fd, emit, open_slot. cbn.
    rewrite Hsp. cbn. split; [reflexivity | lia].
  - destruct (GetOrCreateStats_no_entry now w) as [n1 [H1 F1]].
    exists (n1 ++ [AddProcess
      (match lookup tid (tids_to_pids_ w) with Some p => p | None => tid end);
      AddFd fd path]).
    unfold add_seen_fd, set_stats_process, set_handles, emit, open_slot.
    cbn [out cur_ps_stats_process_ snd]. rewrite Hsp.
    rewrite H1, <- !app_assoc. split; [reflexivity |].
    rewrite filter_app, F1. simpl. lia.
Qed.

Lemma entry_step_WriteFds (rl : Z -> Z -> option String.string)
    (resolve : bool) (dir : option (list Dirent)) (now pid : Z) (w : Writer) :
  entry_step w (WriteFds rl resolve dir now pid w).
Proof.
  unfold WriteFds. destruct (negb resolve); [apply entry_step_refl |].
  destruct dir as [ents |]; [| apply entry_step_refl].
  apply (fold_rel entry_step entry_step_refl entry_step_trans).
  intros w' e. destruct (is_lnk e); [| apply entry_step_refl].
  destruct (fd_of_name e); [apply entry_step_WriteSingleFd | apply entry_step_refl].
Qed.

Lemma FinalizeCurPacket_no_entry (now : Z) (w : Writer) :
  exists new, out (FinalizeCurPacket now w) = out w ++ new /\
  filter is_add_process new = [].
Proof.
  unfold FinalizeCurPacket. cbv zeta.
  destruct (cur_ps_tree_ w).
  - destruct (cur_ps_stats_ (emit (TreeEnd now) w)).
    + exists [TreeEnd now; StatsEnd now]. unfold set_scan_ts, set_handles, emit.
      cbn [out]. rewrite <- app_assoc. split; reflexivity.
    + exists [TreeEnd now]. split; reflexivity.
  - destruct (cur_ps_stats_ w).
    + exists [StatsEnd now]. split; reflexivity.
    + exists []. rewrite app_nil_r. split; reflexivity.
Qed.

(** The fd loop at the end of [WriteAllProcesses] never resets
    [cur_ps_stats_process_]: however many pids it walks, it adds at most one
    [ProcessStats.Process] entry. *)
Theorem WriteAllFds_one_entry (rl : Z -> Z -> option String.string)
    (resolve : bool) (dirs : Z -> option (list Dirent)) (now : Z)
    (seen_pids : list Z) (w : Writer) :
  exists new, out (WriteAllFds rl resolve dirs now seen_pids w) = out w ++ new /\
  (length (filter is_add_process new) <= 1)%nat.
Proof.
  unfold WriteAllFds.
  destruct (fold_rel entry_step entry_step_refl entry_step_trans
              (fun w pid => WriteFds rl resolve (dirs pid) now pid w) seen_pids w
              (fun w pid => entry_step_WriteFds rl resolve (dirs pid) now pid w))
    as [n1 [H1 C1]].
  destruct (FinalizeCurPacket_no_entry now
              (fold_left (fun w pid => WriteFds rl resolve (dirs pid) now pid w)
                         seen_pids w)) as [n2 [H2 F2]].
  exists (n1 ++ n2). rewrite H2, H1, app_assoc. split; [reflexivity |].
  rewrite filter_app, F2, app_nil_r.
  assert (open_slot w <= 1)%nat by (unfold open_slot; destruct (cur_ps_stats_process_ w); lia).
  lia.
Qed.


(** ** Witnesses *)

Lemma handles_ok_initial : handles_ok initial_writer.
Proof.
  unfold handles_ok, initial_writer. simpl.
  split; [discriminate |]. split; [discriminate |].
  split; [left; reflexivity | intros H; exfalso; apply H; reflexivity].
Qed.

Lemma handles_ok_run_ops_witness :
  handles_ok (run_ops [OpGetOrCreatePsTree 5; OpGetOrCreateStatsProcess 5 10;
                       OpWriteSingleFd (fun _ _ => Some "/dev/null"%string) 5 10 3]
                      initial_writer).
Proof. apply handles_ok_run_ops. exact handles_ok_initial. Defined.

Lemma ClearIncrementalState_flags_first_packet_witness :
  exists new,
    out (run_ops [OpClearIncrementalState; OpGetOrCreateStats 5;
                  OpFinalizeCurPacket 6; OpGetOrCreatePsTree 7;
                  OpFinalizeCurPacket 8] initial_writer) = out initial_writer ++ new /\
    (packet_flags new = [] \/ exists n, packet_flags new = true :: repeat false n).
Proof.
  apply ClearIncrementalState_flags_first_packet. reflexivity.
Defined.

Lemma no_clear_no_flag_witness :
  exists new,
    out (run_ops [OpGetOrCreateStats 5; OpFinalizeCurPacket 6;
                  OpGetOrCreatePsTree 7] initial_writer) = out initial_writer ++ new /\
    forallb negb (packet_flags new) = true.
Proof. apply no_clear_no_flag; reflexivity. Defined.

End PsWriterFacts.
